(** * feedfetch: the revalidating feed cache

    A shallow embedding of [src/feedfetch.py] (class [FeedCache]) and the
    properties of its [fetch] algorithm.

    - Python's [datetime] values are integers counting microseconds;
      [timedelta(seconds=s)] is [s * 1000000].  The range limits of
      Python's datetime (years 1..9999) are not modelled.
    - Python strings are [string]s; header values and entity tags are
      taken to be Latin-1 text, where the only code points matched by the
      regular expression class [\d] are the ASCII digits.
    - A [FeedParserDict] is a record of the keys that [fetch] reads with
      [.get]; a key that is absent reads as [None].
    - The shelf files on disk form a finite map from paths to shelves; a
      path outside its domain is a file that does not exist.
    - Everything [fetch] does to the outside world (opening a shelf
      session, calling the parse collaborator) is appended to a trace. *)

From Stdlib Require Import ZArith String Ascii List Bool Lia.
From stdpp Require Import base option gmap strings list fin_maps.

Local Open Scope string_scope.
Local Open Scope list_scope.
Local Open Scope Z_scope.

(** ** Data model *)

Definition datetime := Z.

(** [datetime.timedelta(seconds=s)] *)
Definition timedelta (seconds : Z) : Z := seconds * 1000000.

(** One parsed feed entry; its content is opaque to the cache. *)
Definition entry := string.

(** [feedparser.util.FeedParserDict], restricted to the keys read by
    [FeedCache.fetch].  [bozo] is the truth value of [feed.get('bozo')]. *)
Record FeedParserDict : Type := mkFeedParserDict {
  status : option Z;
  entries : option (list entry);
  bozo : bool;
  bozo_exception : option string;
  headers : option (gmap string string);
  etag : option string;
  modified : option string
}.

(** [FeedCache.Feed]: a parsed feed together with its expire time.  The
    only [Feed] objects that reach the shelf are built after the parsed
    feed was found not to be [None], so the field is not optional. *)
Record Feed : Type := mkFeed {
  feed : FeedParserDict;
  expire_dt : datetime
}.

(** Exceptions that can leave [fetch]. *)
Inductive exn : Type :=
| FetchError (message : string) (statuscode : option Z)
| ParseError (message : string)
| URLError (reason : string)
| AttributeError (message : string)
| TypeError (message : string)
| KeyError (key : string).

Inductive outcome (A : Type) : Type :=
| Ok (a : A)
| Raise (e : exn).
Arguments Ok {A} a.
Arguments Raise {A} e.

(** Whether an exception belongs to the FetchError / ParseError taxonomy. *)
Definition in_taxonomy (e : exn) : bool :=
  match e with
  | FetchError _ _ | ParseError _ => true
  | _ => false
  end.

(** ** The world: shelf files and the trace of effects *)

Inductive shelf_flag : Type := flag_r | flag_c.

Inductive event : Type :=
| EvOpen (path : string) (flag : shelf_flag)
| EvParse (url : string) (etag modified : option string).

Definition is_write_open (ev : event) : bool :=
  match ev with EvOpen _ flag_c => true | _ => false end.

Definition is_open (ev : event) : bool :=
  match ev with EvOpen _ _ => true | _ => false end.

Definition is_parse (ev : event) : bool :=
  match ev with EvParse _ _ _ => true | _ => false end.

Record world : Type := mkWorld {
  fs : gmap string (gmap string Feed);
  trace : list event
}.

(** ** State-and-exception monad *)

Definition M (A : Type) : Type := world → outcome A * world.

Definition ret {A} (a : A) : M A := fun w => (Ok a, w).

Definition bind {A B} (m : M A) (k : A → M B) : M B :=
  fun w =>
    match m w with
    | (Ok a, w') => k a w'
    | (Raise e, w') => (Raise e, w')
    end.

Definition raise {A} (e : exn) : M A := fun w => (Raise e, w).

Definition emit (ev : event) : M unit :=
  fun w => (Ok tt, mkWorld (fs w) (trace w ++ [ev])).

Definition get_fs : M (gmap string (gmap string Feed)) :=
  fun w => (Ok (fs w), w).

Definition put_fs (f : gmap string (gmap string Feed)) : M unit :=
  fun w => (Ok tt, mkWorld f (trace w)).

Declare Scope py_scope.
Delimit Scope py_scope with py.
Notation "x <- m ;; k" := (bind m (fun x => k))
  (at level 100, m at next level, right associativity) : py_scope.
Notation "m ;;; k" := (bind m (fun _ => k))
  (at level 100, right associativity) : py_scope.
Local Open Scope py_scope.

(** ** String helpers *)

(** [s.lstrip(chars)]: drop leading characters that occur in [chars]. *)
Fixpoint lstrip (chars : list ascii) (s : string) : string :=
  match s with
  | EmptyString => EmptyString
  | String c s' =>
      if existsb (Ascii.eqb c) chars then lstrip chars s' else s
  end.

(** Removes [p] from the front of [s], when [s] starts with [p]. *)
Fixpoint strip_prefix (p s : string) : option string :=
  match p, s with
  | EmptyString, _ => Some s
  | String a p', String b s' =>
      if Ascii.eqb a b then strip_prefix p' s' else None
  | String _ _, EmptyString => None
  end.

Definition is_digit (c : ascii) : bool :=
  let n := N_of_ascii c in ((48 <=? n) && (n <=? 57))%N.

(** The longest run of digits at the front of [s] (greedy [\d+] / [\d*]). *)
Fixpoint take_digits (s : string) : string :=
  match s with
  | String c s' => if is_digit c then String c (take_digits s') else EmptyString
  | EmptyString => EmptyString
  end.

(** [re.match('max-age=(\d+)', s)]: group 1 of a match anchored at the
    front of [s]. *)
Definition match_max_age (s : string) : option string :=
  match strip_prefix "max-age=" s with
  | Some rest =>
      match take_digits rest with
      | EmptyString => None
      | ds => Some ds
      end
  | None => None
  end.

(** [re.search('max-age=(\d+)', s)]: group 1 of the leftmost match. *)
Fixpoint search_max_age (s : string) : option string :=
  match match_max_age s with
  | Some ds => Some ds
  | None =>
      match s with
      | EmptyString => None
      | String _ s' => search_max_age s'
      end
  end.

(** [int(ds)] for a string of decimal digits. *)
Fixpoint int_acc (acc : Z) (ds : string) : Z :=
  match ds with
  | EmptyString => acc
  | String c ds' => int_acc (acc * 10 + (Z.of_N (N_of_ascii c) - 48)) ds'
  end.

Definition int (ds : string) : Z := int_acc 0 ds.

(** ["{}".format(x)] for an optional string. *)
Definition format_opt (x : option string) : string :=
  match x with
  | Some s => s
  | None => "None"
  end.

(** Python truthiness of an optional string. *)
Definition truthy (x : option string) : bool :=
  match x with
  | Some (String _ _) => true
  | _ => false
  end.

Definition NOT_MODIFIED : Z := 304.

(** ** FeedCache *)

Module FeedCache.

(** The collaborator [parse(url, etag=..., modified=...)] either raises or
    returns a feed (possibly [None]). *)
Definition parse_t : Type :=
  string → option string → option string → outcome (option FeedParserDict).

Record t : Type := mk {
  path : string;
  min_age : Z;
  parse : parse_t
}.

(** [FeedCache.__get] *)
Definition __get (self : t) (url : string) : M (option Feed) :=
  files <- get_fs ;;
  match files !! path self with
  | Some shelf =>
      emit (EvOpen (path self) flag_r) ;;;
      ret (shelf !! url)
  | None => ret None
  end.

(** [FeedCache.__update]: a session opened with flag ['c'] creates the
    shelf file when it is missing. *)
Definition __update (self : t) (url : string) (f : Feed) : M unit :=
  emit (EvOpen (path self) flag_c) ;;;
  files <- get_fs ;;
  put_fs (<[path self := <[url := f]> (default ∅ (files !! path self))]> files).

(** The validators handed to the collaborator for a stale entry
    (lines 114-116). *)
Definition stale_etag (cached : Feed) : option string :=
  let etag := etag (feed cached) in
  if truthy etag then lstrip ["W"; "/"]%char <$> etag else None.

Definition stale_lastmod (cached : Feed) : option string :=
  modified (feed cached).

(** [self.parse(url, etag=etag, modified=lastmod)] *)
Definition call_parse (self : t) (url : string) (etag lastmod : option string)
  : M (option FeedParserDict) :=
  emit (EvParse url etag lastmod) ;;;
  match parse self url etag lastmod with
  | Ok f => ret f
  | Raise e => raise e
  end.

(** The effective lifetime in seconds (lines 148-153), from the value of
    [headers.get('cache-control')]; [x or ''] is [x] unless [x] is [None]
    or the empty string, when it is the empty string. *)
Definition effective_min_age (self : t) (cache_control : option string) : Z :=
  let cc_header := default "" cache_control in
  match search_max_age cc_header with
  | Some ds => Z.min (int ds) (min_age self)
  | None => min_age self
  end.

(** Lines 126-156 of [fetch]: classify the collaborator's result and
    write the cache. *)
Definition store_fetched (self : t) (now : datetime) (url : string)
    (cached : option Feed) (feed0 : option FeedParserDict) : M FeedParserDict :=
  match feed0 with
  | None => raise (FetchError "Failed to fetch feed" None)
  | Some f =>
      match status f with
      | None => raise (FetchError "Failed to fetch feed" None)
      | Some st =>
          if 399 <? st then raise (FetchError "HTTP error" (Some st))
          else
            rejected <-
              (if st <? 399 then
                 match entries f with
                 | None => raise (TypeError "object of type 'NoneType' has no len()")
                 | Some es => ret ((length es =? 0)%nat && bozo f)
                 end
               else ret false) ;;
            if rejected : bool then
              raise (ParseError ("Parse error: " +:+ format_opt (bozo_exception f)))
            else
              fetched_feed <-
                (if st =? NOT_MODIFIED then
                   match cached with
                   | Some c => ret (feed c)
                   | None =>
                       raise (AttributeError "'NoneType' object has no attribute 'feed'")
                   end
                 else ret f) ;;
              match headers fetched_feed with
              | None => raise (AttributeError "'NoneType' object has no attribute 'get'")
              | Some hs =>
                  let min_age := effective_min_age self (hs !! "cache-control") in
                  let fetched := mkFeed fetched_feed (now + timedelta min_age) in
                  __update self url fetched ;;;
                  ret fetched_feed
              end
      end
  end.

(** [FeedCache.fetch]; [now] is the reading of [datetime.datetime.now()]
    taken on entry. *)
Definition fetch (self : t) (now : datetime) (url : string) : M FeedParserDict :=
  cached <- __get self url ;;
  match cached with
  | Some c =>
      if now <? expire_dt c then ret (feed c)
      else
        feed0 <- call_parse self url (stale_etag c) (stale_lastmod c) ;;
        store_fetched self now url cached feed0
  | None =>
      feed0 <- call_parse self url None None ;;
      store_fetched self now url cached feed0
  end.

End FeedCache.

(** ** Vocabulary for the statements about [fetch] *)

Import FeedCache.

(** The entry the shelf file of [self] holds for [url], if any. *)
Definition cache_lookup (self : t) (url : string) (w : world) : option Feed :=
  fs w !! path self ≫= λ shelf, shelf !! url.

(** The events of the read that opens [fetch]: a read session when the
    shelf file exists, nothing otherwise. *)
Definition read_events (self : t) (w : world) : list event :=
  match fs w !! path self with
  | Some _ => [EvOpen (path self) flag_r]
  | None => []
  end.

(** The validators [fetch] sends for a cache content [cached]. *)
Definition request_etag (cached : option Feed) : option string :=
  cached ≫= stale_etag.

Definition request_lastmod (cached : option Feed) : option string :=
  cached ≫= stale_lastmod.

(** The world once the cache was read and the collaborator was called. *)
Definition requested (self : t) (url : string) (w : world) : world :=
  let cached := cache_lookup self url w in
  mkWorld (fs w)
    (trace w ++ read_events self w
       ++ [EvParse url (request_etag cached) (request_lastmod cached)]).

(** What the collaborator answers to that call. *)
Definition response (self : t) (url : string) (w : world)
  : outcome (option FeedParserDict) :=
  let cached := cache_lookup self url w in
  parse self url (request_etag cached) (request_lastmod cached).

(** The cache cannot serve [url] at time [now]: no entry, or an entry
    whose expire time is not in the future. *)
Definition must_request (self : t) (now : datetime) (url : string) (w : world) : Prop :=
  match cache_lookup self url w with
  | Some c => expire_dt c <= now
  | None => True
  end.

(** The parse-error test of lines 134-135 holds of a feed. *)
Definition malformed (f : FeedParserDict) : Prop :=
  entries f = Some [] ∧ bozo f = true.

(** The write-session events of a trace. *)
Definition write_sessions (tr : list event) : list event :=
  List.filter is_write_open tr.

(** The collaborator calls of a trace. *)
Definition parse_calls (tr : list event) : list event :=
  List.filter is_parse tr.

(** The world after [__update self url entry] ran in [w]. *)
Definition updated (self : t) (url : string) (entry : Feed) (w : world) : world :=
  mkWorld
    (<[path self := <[url := entry]> (default ∅ (fs w !! path self))]> (fs w))
    (trace w ++ [EvOpen (path self) flag_c]).

(** The value of the [cache-control] header of a feed. *)
Definition cache_control (f : FeedParserDict) : option string :=
  headers f ≫= λ hs, hs !! "cache-control".

(** Every character of a string is an ASCII digit. *)
Fixpoint all_digits (s : string) : bool :=
  match s with
  | EmptyString => true
  | String c s' => is_digit c && all_digits s'
  end.

(** The collaborator's answer carries no status: it is [None], or a feed
    without the key. *)
Definition no_status (r : option FeedParserDict) : Prop :=
  match r with
  | Some f => status f = None
  | None => True
  end.

(** [w'] holds the same shelf files as [w], and no write session was
    opened on the way from [w] to [w']. *)
Definition cache_untouched (w w' : world) : Prop :=
  fs w' = fs w ∧ write_sessions (trace w') = write_sessions (trace w).

(** A feed with status [st] passes the three tests of lines 128-137. *)
Definition accepted (f : FeedParserDict) (st : Z) : Prop :=
  status f = Some st ∧ st <= 399 ∧
  (st < 399 → ∃ es, entries f = Some es ∧ (es = [] → bozo f = false)).

(** The feed that is cached and returned for an accepted answer [f]: the
    cached feed on a not-modified status, [f] itself otherwise. *)
Definition payload_of (cached : option Feed) (f : FeedParserDict) (st : Z)
  : option FeedParserDict :=
  if st =? NOT_MODIFIED then feed <$> cached else Some f.

(** The lifetime in seconds that [fetch] grants a payload. *)
Definition ttl_of (self : t) (p : FeedParserDict) : Z :=
  effective_min_age self (cache_control p).

(** The value of the max-age directive in the [cache-control] header of a
    feed, when the regular expression finds one. *)
Definition max_age_directive (p : FeedParserDict) : option Z :=
  int <$> search_max_age (default "" (cache_control p)).

(** The minimum of the directive and [min_age], or [min_age] alone. *)
Definition bounded_ttl (self : t) (directive : option Z) : Z :=
  match directive with
  | Some d => Z.min d (min_age self)
  | None => min_age self
  end.

(** Every feed on the shelves carries a headers mapping. *)
Definition stored_with_headers (w : world) : Prop :=
  ∀ file shelf url c,
    fs w !! file = Some shelf → shelf !! url = Some c →
    is_Some (headers (feed c)).

(** Every character of [s] occurs in [chars]. *)
Fixpoint only_chars (chars : list ascii) (s : string) : bool :=
  match s with
  | EmptyString => true
  | String a s' => existsb (Ascii.eqb a) chars && only_chars chars s'
  end.

(** [s] begins with a character that occurs in [chars]. *)
Definition starts_with_any (chars : list ascii) (s : string) : bool :=
  match s with
  | EmptyString => false
  | String a _ => existsb (Ascii.eqb a) chars
  end.

(** The collaborator call that [fetch] makes when the cache cannot serve
    the url. *)
Definition request_event (self : t) (url : string) (w : world) : event :=
  let cached := cache_lookup self url w in
  EvParse url (request_etag cached) (request_lastmod cached).

(** One call of [fetch]: the cache it is made on, the clock reading and
    the url. *)
Record call : Type := mkCall {
  c_self : t;
  c_now : datetime;
  c_url : string
}.

(** The world after a call, whatever its outcome, and after a sequence of
    calls. *)
Definition after_call (w : world) (c : call) : world :=
  snd (fetch (c_self c) (c_now c) (c_url c) w).

Definition after_calls (calls : list call) (w : world) : world :=
  fold_left after_call calls w.

(** ** ShelfCache: the generic TTL cache *)

Module ShelfCache.

(** Modelled from the spec: the module [feedfetch/shelfcache.py] (classes
    [ShelfCache] and [Item]) is not part of the sources at hand, only its
    tests are.  The definitions below follow section 4.2 of the
    specification: an entry is a payload with an optional expire time and
    its creation time; [get] gives no result for an absent key and
    otherwise the payload with a staleness flag; the indexed read differs
    only in signalling an error for an absent key; a shelf file that does
    not exist reads as an empty store; [create_or_update] overwrites the
    entry, stamping it with the time of the write. *)

Definition payload := string.

Record Item : Type := mkItem {
  data : payload;
  expire_dt : option datetime;
  created_dt : datetime
}.

(** The shelf file: [None] when it does not exist on disk. *)
Definition disk : Type := option (gmap string Item).

(** Modelled from the spec: staleness is true at or after the expire time
    and never for an entry without one. *)
Definition is_stale (now : datetime) (it : Item) : bool :=
  match expire_dt it with
  | Some e => e <=? now
  | None => false
  end.

(** Modelled from the spec: the optional-result read [get(key)]. *)
Definition get (now : datetime) (key : string) (d : disk)
  : outcome (option (payload * bool)) * disk :=
  match d with
  | None => (Ok None, d)
  | Some shelf =>
      (Ok ((λ it, (data it, is_stale now it)) <$> shelf !! key), d)
  end.

(** Modelled from the spec: the indexed read [cache[key]]. *)
Definition getitem (now : datetime) (key : string) (d : disk)
  : outcome (payload * bool) * disk :=
  match d ≫= λ shelf, shelf !! key with
  | Some it => (Ok (data it, is_stale now it), d)
  | None => (Raise (KeyError key), d)
  end.

(** The ways a write can state the lifetime of its entry. *)
Inductive lifetime : Type :=
| never_expires
| expire_at (dt : datetime)
| ttl_seconds (seconds : Z).

(** Modelled from the spec: [create_or_update(key, payload, ...)] at
    write time [now]. *)
Definition create_or_update (now : datetime) (key : string) (p : payload)
    (l : lifetime) (d : disk) : disk :=
  let e := match l with
           | never_expires => None
           | expire_at dt => Some dt
           | ttl_seconds s => Some (now + timedelta s)
           end in
  Some (<[key := mkItem p e now]> (default ∅ d)).

(** Modelled from the spec: the assignment form [cache[key] = payload]. *)
Definition setitem (now : datetime) (key : string) (p : payload) (d : disk) : disk :=
  create_or_update now key p never_expires d.

(** One write to the cache, with the clock reading it is made at. *)
Record write : Type := mkWrite {
  w_time : datetime;
  w_key : string;
  w_payload : payload;
  w_lifetime : lifetime
}.

Definition apply_write (d : disk) (wr : write) : disk :=
  create_or_update (w_time wr) (w_key wr) (w_payload wr) (w_lifetime wr) d.

(** The store after a history of writes, starting from a shelf file that
    was never created. *)
Definition after_writes (history : list write) : disk :=
  fold_left apply_write history None.

End ShelfCache.

(** ** Concrete caches and worlds *)

Module Examples.

(** A feed with a status, entries, the bozo flag, one optional
    [cache-control] header and an optional entity tag. *)
Definition feed_with (st : Z) (es : list entry) (bz : bool)
    (cc et : option string) : FeedParserDict :=
  {| status := Some st;
     entries := Some es;
     bozo := bz;
     bozo_exception := if bz then Some "not well-formed" else None;
     headers := Some (match cc with
                      | Some v => {["cache-control" := v]}
                      | None => ∅
                      end);
     etag := et;
     modified := Some "Sat, 01 Jan 2022 00:00:00 GMT" |}.

(** A collaborator that answers every call with [f]. *)
Definition answering (f : FeedParserDict) : parse_t :=
  λ _ _ _, Ok (Some f).

(** A cache on the shelf file [feeds.db] in front of that collaborator. *)
Definition cache_of (min_age : Z) (f : FeedParserDict) : t :=
  {| path := "feeds.db"; min_age := min_age; parse := answering f |}.

(** A world whose shelf file holds [c] for the url [u]. *)
Definition holding (c : Feed) : world :=
  {| fs := {["feeds.db" := {["u" := c]}]}; trace := [] |}.

(** A world without any shelf file. *)
Definition no_file : world := {| fs := ∅; trace := [] |}.

Definition old_feed : FeedParserDict :=
  feed_with 200 ["first post"; "second post"] false None (Some "W/abc").

Definition new_feed : FeedParserDict :=
  feed_with 200 ["third post"] false (Some "public, max-age=60") (Some "def").

(** A collaborator that answers not-modified to the entity tag [abc] and
    with [new_feed] to any other call. *)
Definition revalidating : parse_t :=
  λ _ etag _,
    if decide (etag = Some "abc")
    then Ok (Some (feed_with 304 [] false None None))
    else Ok (Some new_feed).

End Examples.

(** * Properties *)

(** ** The monad and the two shelf accesses *)

Lemma world_eta (w : world) : mkWorld (fs w) (trace w) = w.
Proof. by destruct w. Qed.

Lemma get_spec (self : t) (url : string) (w : world) :
  __get self url w
  = (Ok (cache_lookup self url w),
     mkWorld (fs w) (trace w ++ read_events self w)).
Proof.
  unfold __get, cache_lookup, read_events, bind, get_fs, emit, ret.
  destruct (fs w !! path self) as [shelf|] eqn:E; simpl.
  - reflexivity.
  - by rewrite app_nil_r, world_eta.
Qed.

Lemma update_spec (self : t) (url : string) (entry : Feed) (w : world) :
  __update self url entry w = (Ok tt, updated self url entry w).
Proof. reflexivity. Qed.

Lemma lookup_updated (self : t) (url : string) (entry : Feed) (w : world) :
  cache_lookup self url (updated self url entry w) = Some entry.
Proof.
  unfold cache_lookup, updated; simpl.
  rewrite lookup_insert_eq; simpl. by rewrite lookup_insert_eq.
Qed.

Lemma lookup_updated_ne (self : t) (url url' : string) (entry : Feed) (w : world) :
  url ≠ url' →
  cache_lookup self url' (updated self url entry w) = cache_lookup self url' w.
Proof.
  intros Hne. unfold cache_lookup, updated; simpl.
  rewrite lookup_insert_eq; simpl. rewrite lookup_insert_ne by done.
  destruct (fs w !! path self); simpl; [done | apply lookup_empty].
Qed.

Lemma write_sessions_app (tr1 tr2 : list event) :
  write_sessions (tr1 ++ tr2) = write_sessions tr1 ++ write_sessions tr2.
Proof. apply List.filter_app. Qed.

Lemma parse_calls_app (tr1 tr2 : list event) :
  parse_calls (tr1 ++ tr2) = parse_calls tr1 ++ parse_calls tr2.
Proof. apply List.filter_app. Qed.

Lemma write_sessions_read_events (self : t) (w : world) :
  write_sessions (read_events self w) = [].
Proof. unfold read_events. by destruct (fs w !! path self). Qed.

Lemma parse_calls_read_events (self : t) (w : world) :
  parse_calls (read_events self w) = [].
Proof. unfold read_events. by destruct (fs w !! path self). Qed.

(** No write session is opened up to and including the collaborator call. *)
Lemma write_sessions_requested (self : t) (url : string) (w : world) :
  write_sessions (trace (requested self url w)) = write_sessions (trace w).
Proof.
  unfold requested; simpl.
  rewrite !write_sessions_app, write_sessions_read_events; simpl.
  by rewrite app_nil_r.
Qed.

(** ** The two halves of [fetch] *)

(** A fresh entry is returned after the read session alone. *)
Lemma fetch_fresh (self : t) (now : datetime) (url : string) (w : world) (c : Feed) :
  cache_lookup self url w = Some c →
  now < expire_dt c →
  fetch self now url w
  = (Ok (feed c), mkWorld (fs w) (trace w ++ [EvOpen (path self) flag_r])).
Proof.
  intros Hc Hlt. unfold fetch, bind. rewrite get_spec, Hc.
  apply Z.ltb_lt in Hlt. rewrite Hlt. unfold ret, read_events.
  unfold cache_lookup in Hc.
  destruct (fs w !! path self); [done | discriminate].
Qed.

(** Otherwise the collaborator is called and its answer classified. *)
Lemma fetch_request (self : t) (now : datetime) (url : string) (w : world) :
  must_request self now url w →
  fetch self now url w
  = match response self url w with
    | Ok r =>
        store_fetched self now url (cache_lookup self url w) r
          (requested self url w)
    | Raise e => (Raise e, requested self url w)
    end.
Proof.
  unfold must_request, response, requested. intros Hreq.
  unfold fetch, bind. rewrite get_spec.
  destruct (cache_lookup self url w) as [c|] eqn:Hc; simpl.
  - apply Z.ltb_ge in Hreq. rewrite Hreq.
    unfold call_parse, bind, emit; simpl. rewrite <- app_assoc.
    by destruct (parse self url (stale_etag c) (stale_lastmod c)).
  - unfold call_parse, bind, emit; simpl. rewrite <- app_assoc.
    by destruct (parse self url None None).
Qed.

(** ** Classification of the collaborator's answer *)

Section Classification.

Context (self : t) (now : datetime) (url : string).
Context (cached : option Feed) (w : world).

Lemma store_fetched_no_status (r : option FeedParserDict) :
  no_status r →
  store_fetched self now url cached r w
  = (Raise (FetchError "Failed to fetch feed" None), w).
Proof.
  destruct r as [f|]; simpl; [|done].
  intros ->. reflexivity.
Qed.

Lemma store_fetched_http_error (f : FeedParserDict) (st : Z) :
  status f = Some st → 400 <= st →
  store_fetched self now url cached (Some f) w
  = (Raise (FetchError "HTTP error" (Some st)), w).
Proof.
  intros Hst Hge. simpl. rewrite Hst.
  assert ((399 <? st) = true) as -> by (apply Z.ltb_lt; lia).
  reflexivity.
Qed.

Lemma store_fetched_malformed (f : FeedParserDict) (st : Z) :
  status f = Some st → st < 399 → malformed f →
  store_fetched self now url cached (Some f) w
  = (Raise (ParseError ("Parse error: " +:+ format_opt (bozo_exception f))), w).
Proof.
  intros Hst Hlt [Hes Hbz]. simpl. rewrite Hst.
  assert ((399 <? st) = false) as -> by (apply Z.ltb_ge; lia).
  assert ((st <? 399) = true) as -> by (apply Z.ltb_lt; lia).
  rewrite Hes, Hbz. reflexivity.
Qed.

(** The test of lines 134-135 on an accepted feed comes out false without
    raising. *)
Lemma accepted_not_rejected (f : FeedParserDict) (st : Z) (w' : world) :
  accepted f st →
  (if st <? 399
   then match entries f with
        | None => raise (TypeError "object of type 'NoneType' has no len()")
        | Some es => ret ((length es =? 0)%nat && bozo f)
        end
   else ret false) w' = (Ok false, w').
Proof.
  intros (_ & _ & Hes).
  destruct (st <? 399) eqn:E; [|done].
  apply Z.ltb_lt in E. destruct (Hes E) as (es & -> & Hb).
  destruct es as [|e es]; simpl; [|done].
  by rewrite Hb.
Qed.

Lemma store_fetched_accepted (f p : FeedParserDict) (st : Z) :
  accepted f st →
  payload_of cached f st = Some p →
  is_Some (headers p) →
  store_fetched self now url cached (Some f) w
  = (Ok p, updated self url (mkFeed p (now + timedelta (ttl_of self p))) w).
Proof.
  intros Hacc Hp [hs Hhs]. pose proof Hacc as (Hst & Hle & _).
  unfold store_fetched. rewrite Hst.
  assert ((399 <? st) = false) as -> by (apply Z.ltb_ge; lia).
  unfold bind at 1. rewrite (accepted_not_rejected f st w Hacc).
  unfold payload_of in Hp. unfold bind at 1.
  assert ((if st =? NOT_MODIFIED
           then match cached with
                | Some c => ret (feed c)
                | None => raise (AttributeError "'NoneType' object has no attribute 'feed'")
                end
           else ret f) w = (Ok p, w)) as ->.
  { destruct (st =? NOT_MODIFIED).
    - destruct cached; simpl in Hp; [by inversion Hp | discriminate].
    - by inversion Hp. }
  rewrite Hhs. unfold bind. rewrite update_spec.
  unfold ret, ttl_of, cache_control. by rewrite Hhs.
Qed.

(** A not-modified answer without a cached entry to fall back on. *)
Lemma store_fetched_nothing_to_reuse (f : FeedParserDict) :
  accepted f NOT_MODIFIED →
  cached = None →
  store_fetched self now url cached (Some f) w
  = (Raise (AttributeError "'NoneType' object has no attribute 'feed'"), w).
Proof.
  intros Hacc ->. pose proof Hacc as (Hst & _ & _).
  unfold store_fetched. rewrite Hst.
  change (399 <? NOT_MODIFIED) with false. cbv iota.
  unfold bind at 1. rewrite (accepted_not_rejected f _ w Hacc).
  reflexivity.
Qed.

End Classification.

(** [store_fetched] only ever appends to the trace. *)
Lemma store_fetched_trace (self : t) (now : datetime) (url : string)
    (cached : option Feed) (r : option FeedParserDict) (w : world) :
  ∃ rest, trace (snd (store_fetched self now url cached r w)) = trace w ++ rest.
Proof.
  unfold store_fetched.
  destruct r as [f|]; [|exists []; simpl; by rewrite app_nil_r].
  destruct (status f) as [st|]; [|exists []; simpl; by rewrite app_nil_r].
  destruct (399 <? st); [exists []; simpl; by rewrite app_nil_r|].
  unfold bind, ret, raise.
  destruct (st <? 399); [destruct (entries f) as [es|]|];
    try (exists []; simpl; by rewrite app_nil_r).
  - destruct ((length es =? 0)%nat && bozo f);
      [exists []; simpl; by rewrite app_nil_r|].
    destruct (st =? NOT_MODIFIED); [destruct cached as [c|]|];
      try (exists []; simpl; by rewrite app_nil_r);
      match goal with
      | |- context [headers ?p] =>
          destruct (headers p);
          [rewrite update_spec; eexists; reflexivity
          |exists []; simpl; by rewrite app_nil_r]
      end.
  - destruct (st =? NOT_MODIFIED); [destruct cached as [c|]|];
      try (exists []; simpl; by rewrite app_nil_r);
      match goal with
      | |- context [headers ?p] =>
          destruct (headers p);
          [rewrite update_spec; eexists; reflexivity
          |exists []; simpl; by rewrite app_nil_r]
      end.
Qed.

(** ** Reading the cache *)

(** C8: when no shelf file exists at the configured path, reading any key
    gives [None] without raising, and the world -- shelf files and trace
    alike -- is unchanged, so no shelf session was opened. *)
Theorem get_without_shelf_file (self : t) (url : string) (w : world) :
  fs w !! path self = None →
  __get self url w = (Ok None, w) ∧
  List.filter is_open (trace (snd (__get self url w)))
  = List.filter is_open (trace w).
Proof.
  intros Hnone.
  assert (__get self url w = (Ok None, w)) as Heq.
  { rewrite get_spec. unfold cache_lookup, read_events. rewrite Hnone; simpl.
    by rewrite app_nil_r, world_eta. }
  by rewrite Heq.
Qed.

Lemma get_without_shelf_file_witness :
  let self := Examples.cache_of 1200 Examples.new_feed in
  fs Examples.no_file !! path self = None ∧
  __get self "u" Examples.no_file = (Ok None, Examples.no_file) ∧
  List.filter is_open (trace (snd (__get self "u" Examples.no_file)))
  = List.filter is_open (trace Examples.no_file).
Proof.
  intros self. split; [reflexivity|].
  apply (get_without_shelf_file self "u" Examples.no_file). reflexivity.
Defined.

(** ** Freshness *)

(** C1, as stated, fails: an entry that expires one microsecond after the
    current time -- so its expiration is at or after the current time --
    is served from the cache and the collaborator is not called. *)
Lemma expiry_after_now_is_served :
  let c := mkFeed Examples.old_feed 11 in
  let self := Examples.cache_of 1200 Examples.new_feed in
  10 <= expire_dt c ∧
  fst (fetch self 10 "u" (Examples.holding c)) = Ok Examples.old_feed ∧
  parse_calls (trace (snd (fetch self 10 "u" (Examples.holding c)))) = [].
Proof. vm_compute. repeat split; congruence. Qed.

(** C1, amended: with an entry cached for the url, a clock reading
    strictly before its expire time makes [fetch] return the cached feed
    with no call to the collaborator and no write to the shelf; an entry
    whose expiration is at or before the current time (exactly at expiry
    included) is stale: the collaborator is called, with the validators
    taken from the cached feed. *)
Theorem fetch_fresh_or_stale (self : t) (now : datetime) (url : string)
    (w : world) (c : Feed) :
  cache_lookup self url w = Some c →
  (now < expire_dt c →
   ∃ w', fetch self now url w = (Ok (feed c), w') ∧
         parse_calls (trace w') = parse_calls (trace w) ∧
         cache_untouched w w') ∧
  (expire_dt c <= now →
   ∃ rest, trace (snd (fetch self now url w))
           = trace w ++ EvOpen (path self) flag_r
               :: EvParse url (stale_etag c) (stale_lastmod c) :: rest).
Proof.
  intros Hc. split.
  - intros Hlt. eexists. split; [by apply fetch_fresh|].
    unfold cache_untouched; simpl.
    rewrite parse_calls_app, write_sessions_app; simpl.
    by rewrite !app_nil_r.
  - intros Hle.
    assert (must_request self now url w) as Hreq
      by (unfold must_request; by rewrite Hc).
    rewrite (fetch_request _ _ _ _ Hreq).
    assert (trace (requested self url w)
            = trace w ++ [EvOpen (path self) flag_r;
                          EvParse url (stale_etag c) (stale_lastmod c)]) as Htr.
    { unfold requested, read_events; simpl. rewrite Hc; simpl.
      unfold cache_lookup in Hc.
      destruct (fs w !! path self); [done | discriminate]. }
    destruct (response self url w) as [r|e].
    + destruct (store_fetched_trace self now url (cache_lookup self url w) r
                  (requested self url w)) as [rest Hrest].
      exists rest. rewrite Hrest, Htr, <- app_assoc. reflexivity.
    + exists []. simpl snd. by rewrite Htr.
Qed.

Lemma fetch_fresh_or_stale_witness :
  let c := mkFeed Examples.old_feed 10 in
  let self := Examples.cache_of 1200 Examples.new_feed in
  let w := Examples.holding c in
  cache_lookup self "u" w = Some c ∧
  (9 < expire_dt c ∧
   ∃ w', fetch self 9 "u" w = (Ok (feed c), w') ∧
         parse_calls (trace w') = parse_calls (trace w) ∧
         cache_untouched w w') ∧
  (expire_dt c <= 10 ∧
   ∃ rest, trace (snd (fetch self 10 "u" w))
           = trace w ++ EvOpen (path self) flag_r
               :: EvParse "u" (stale_etag c) (stale_lastmod c) :: rest).
Proof.
  intros c self w.
  split; [reflexivity|]. split; split.
  - reflexivity.
  - apply (fetch_fresh_or_stale self 9 "u" w c); reflexivity.
  - discriminate.
  - apply (fetch_fresh_or_stale self 10 "u" w c); [reflexivity | discriminate].
Defined.

(** ** Rejected answers *)

Lemma cache_untouched_requested (self : t) (url : string) (w : world) :
  cache_untouched w (requested self url w) ∧
  cache_lookup self url (requested self url w) = cache_lookup self url w.
Proof.
  split; [split|]; [done | apply write_sessions_requested | done].
Qed.

(** C2: when the cache cannot serve the url and the collaborator's answer
    carries no status, [fetch] raises FetchError; when the answer carries
    a status of 400 or more, [fetch] raises FetchError with that status
    code.  Either way the world afterwards is the one reached by the
    collaborator call: the shelf files are the same, no write session was
    opened and the entry stored for the url is as before. *)
Theorem fetch_error_status (self : t) (now : datetime) (url : string)
    (w : world) (r : option FeedParserDict) :
  must_request self now url w →
  response self url w = Ok r →
  (no_status r →
   fetch self now url w
   = (Raise (FetchError "Failed to fetch feed" None), requested self url w)) ∧
  (∀ f st, r = Some f → status f = Some st → 400 <= st →
   fetch self now url w
   = (Raise (FetchError "HTTP error" (Some st)), requested self url w)) ∧
  cache_untouched w (requested self url w) ∧
  cache_lookup self url (requested self url w) = cache_lookup self url w.
Proof.
  intros Hreq Hresp. rewrite (fetch_request _ _ _ _ Hreq), Hresp.
  split; [|split].
  - apply store_fetched_no_status.
  - intros f st -> Hst Hge. by apply store_fetched_http_error.
  - apply cache_untouched_requested.
Qed.

Lemma fetch_error_status_witness :
  let stale := Examples.holding (mkFeed Examples.old_feed 10) in
  let f500 := Examples.feed_with 500 [] false None None in
  let failing := {| path := "feeds.db"; min_age := 1200;
                    parse := λ _ _ _, Ok None |} in
  let erring := Examples.cache_of 1200 f500 in
  (must_request failing 10 "u" stale ∧
   response failing "u" stale = Ok None ∧
   no_status None ∧
   fetch failing 10 "u" stale
   = (Raise (FetchError "Failed to fetch feed" None),
      requested failing "u" stale)) ∧
  (must_request erring 10 "u" stale ∧
   response erring "u" stale = Ok (Some f500) ∧
   status f500 = Some 500 ∧ 400 <= 500 ∧
   fetch erring 10 "u" stale
   = (Raise (FetchError "HTTP error" (Some 500)), requested erring "u" stale) ∧
   cache_untouched stale (requested erring "u" stale) ∧
   cache_lookup erring "u" (requested erring "u" stale)
   = cache_lookup erring "u" stale).
Proof.
  intros stale f500 failing erring.
  assert (must_request failing 10 "u" stale) as Hreq1 by (vm_compute; discriminate).
  assert (must_request erring 10 "u" stale) as Hreq2 by (vm_compute; discriminate).
  split.
  - split; [exact Hreq1|]. split; [reflexivity|]. split; [exact I|].
    exact (proj1 (fetch_error_status failing 10 "u" stale None Hreq1 eq_refl) I).
  - split; [exact Hreq2|]. split; [reflexivity|]. split; [reflexivity|].
    split; [discriminate|].
    pose proof (fetch_error_status erring 10 "u" stale (Some f500) Hreq2 eq_refl)
      as (_ & Herr & Hsame).
    split; [|exact Hsame].
    apply (Herr f500 500); [reflexivity | reflexivity | discriminate].
Defined.

(** The parse-error branch as the code has it: a status below 399, an
    empty entries list and the bozo flag raise ParseError with the bozo
    exception in the message, and the cache is left as it was. *)
Lemma fetch_parse_error (self : t) (now : datetime) (url : string)
    (w : world) (f : FeedParserDict) (st : Z) :
  must_request self now url w →
  response self url w = Ok (Some f) →
  status f = Some st → st < 399 → malformed f →
  fetch self now url w
  = (Raise (ParseError ("Parse error: " +:+ format_opt (bozo_exception f))),
     requested self url w) ∧
  cache_untouched w (requested self url w) ∧
  cache_lookup self url (requested self url w) = cache_lookup self url w.
Proof.
  intros Hreq Hresp Hst Hlt Hmal.
  rewrite (fetch_request _ _ _ _ Hreq), Hresp.
  split; [by apply (store_fetched_malformed _ _ _ _ _ f st) | apply cache_untouched_requested].
Qed.

(** C3 fails at status 399: an answer with status 399 (strictly less than
    400), no entries and the bozo flag set does not raise ParseError; it
    is returned and written to the cache.  The test of line 134 compares
    the status with 399 where line 131 left every status up to 399. *)
Theorem malformed_status_399_is_cached :
  let f := Examples.feed_with 399 [] true None None in
  let self := Examples.cache_of 1200 f in
  let stale := Examples.holding (mkFeed Examples.old_feed 10) in
  malformed f ∧
  fst (fetch self 10 "u" stale) = Ok f ∧
  cache_lookup self "u" (snd (fetch self 10 "u" stale))
  = Some (mkFeed f (10 + timedelta 1200)).
Proof. vm_compute. repeat split; reflexivity. Qed.

(** ** The max-age directive found by the regular expression *)

Lemma append_nil_l (s : string) : "" +:+ s = s.
Proof. reflexivity. Qed.

Lemma append_cons (a : ascii) (s t : string) :
  String a s +:+ t = String a (s +:+ t).
Proof. reflexivity. Qed.

Lemma strip_prefix_Some (p s r : string) :
  strip_prefix p s = Some r → s = p +:+ r.
Proof.
  revert s. induction p as [|a p IH]; intros s H; simpl in H.
  - by inversion H.
  - destruct s as [|b s]; [discriminate|].
    destruct (Ascii.eqb a b) eqn:E; [|discriminate].
    apply Ascii.eqb_eq in E as ->.
    rewrite append_cons. f_equal. by apply IH.
Qed.

Lemma strip_prefix_app (p r : string) : strip_prefix p (p +:+ r) = Some r.
Proof.
  induction p as [|a p IH]; [by destruct r|].
  rewrite append_cons; simpl. by rewrite Ascii.eqb_refl.
Qed.

(** A string splits into its leading digits and a rest that does not
    start with a digit. *)
Lemma take_digits_split (s : string) :
  ∃ rest, s = take_digits s +:+ rest ∧
          all_digits (take_digits s) = true ∧
          take_digits rest = "".
Proof.
  induction s as [|c s (rest & Hs & Hd & Hr)]; [by exists ""|].
  simpl. destruct (is_digit c) eqn:E.
  - exists rest. rewrite append_cons; simpl. rewrite E, Hd.
    repeat split; [by rewrite <- Hs | done].
  - exists (String c s). repeat split. simpl. by rewrite E.
Qed.

(** What an anchored match returns is a non-empty maximal run of digits
    right after [max-age=]. *)
Lemma match_max_age_Some (s ds : string) :
  match_max_age s = Some ds →
  ∃ rest, s = "max-age=" +:+ ds +:+ rest ∧
          ds ≠ "" ∧ all_digits ds = true ∧ take_digits rest = "".
Proof.
  unfold match_max_age.
  destruct (strip_prefix "max-age=" s) as [r|] eqn:Hp; [|discriminate].
  apply strip_prefix_Some in Hp.
  destruct (take_digits_split r) as (rest & Hr & Hd & Hrest).
  destruct (take_digits r) as [|c ds'] eqn:Ht; [discriminate|].
  intros [= <-]. exists rest. by rewrite <- Hr.
Qed.

(** Soundness of the search: the group it returns is the digits of an
    occurrence of [max-age=<digits>] in the header. *)
Lemma search_max_age_Some (s ds : string) :
  search_max_age s = Some ds →
  ∃ pre rest, s = pre +:+ "max-age=" +:+ ds +:+ rest ∧
              ds ≠ "" ∧ all_digits ds = true ∧ take_digits rest = "".
Proof.
  induction s as [|c s IH]; simpl.
  - discriminate.
  - destruct (match_max_age (String c s)) as [d|] eqn:E.
    + intros [= ->]. exists "". by apply match_max_age_Some.
    + intros H. destruct (IH H) as (pre & rest & -> & Hrest).
      by exists (String c pre), rest.
Qed.

(** Completeness of the search: it finds nothing only when [max-age=] is
    nowhere followed by a digit. *)
Lemma search_max_age_None (s : string) :
  search_max_age s = None →
  ∀ pre c rest, is_digit c = true → s ≠ pre +:+ "max-age=" +:+ String c rest.
Proof.
  induction s as [|a s IH]; simpl.
  - intros _ [|b pre] c rest _; discriminate.
  - destruct (match_max_age (String a s)) as [d|] eqn:E; [discriminate|].
    intros H [|b pre] c rest Hc Heq.
    + rewrite append_nil_l in Heq. unfold match_max_age in E.
      rewrite Heq, strip_prefix_app in E. simpl in E. by rewrite Hc in E.
    + rewrite append_cons in Heq. injection Heq as -> ->.
      by eapply IH.
Qed.

(** [int] of a digit string is its decimal value, which is not negative. *)
Lemma int_acc_nonneg (ds : string) (acc : Z) :
  all_digits ds = true → 0 <= acc → 0 <= int_acc acc ds.
Proof.
  revert acc. induction ds as [|c ds IH]; intros acc Hd Hacc; simpl; [done|].
  simpl in Hd. apply andb_prop in Hd as [Hc Hd]. apply IH; [done|].
  unfold is_digit in Hc. apply andb_prop in Hc as [Hlo _].
  apply N.leb_le in Hlo. lia.
Qed.

Example search_max_age_public : search_max_age "public, max-age=60" = Some "60".
Proof. reflexivity. Qed.

Example search_max_age_leftmost :
  search_max_age "max-age=, s-max-age=0300;max-age=7" = Some "0300".
Proof. reflexivity. Qed.

Example search_max_age_absent : search_max_age "no-cache, max-age" = None.
Proof. reflexivity. Qed.

Example int_leading_zero : int "0300" = 300.
Proof. reflexivity. Qed.

(** ** Accepted answers *)

Lemma ttl_of_directive (self : t) (p : FeedParserDict) :
  ttl_of self p = bounded_ttl self (max_age_directive p).
Proof.
  unfold ttl_of, effective_min_age, bounded_ttl, max_age_directive.
  by destruct (search_max_age (default "" (cache_control p))).
Qed.

Lemma bounded_ttl_le (self : t) (directive : option Z) :
  bounded_ttl self directive <= min_age self.
Proof. unfold bounded_ttl. destruct directive; lia. Qed.

Lemma timedelta_mono (a b : Z) : a <= b → timedelta a <= timedelta b.
Proof. unfold timedelta. lia. Qed.

(** An accepted answer is returned, and written with the lifetime
    [ttl_of] of the payload. *)
Lemma fetch_accepted (self : t) (now : datetime) (url : string) (w : world)
    (f p : FeedParserDict) (st : Z) :
  must_request self now url w →
  response self url w = Ok (Some f) →
  accepted f st →
  payload_of (cache_lookup self url w) f st = Some p →
  is_Some (headers p) →
  fetch self now url w
  = (Ok p,
     updated self url (mkFeed p (now + timedelta (ttl_of self p)))
       (requested self url w)).
Proof.
  intros Hreq Hresp Hacc Hp Hhs.
  rewrite (fetch_request _ _ _ _ Hreq), Hresp.
  by apply (store_fetched_accepted _ _ _ _ _ f p st).
Qed.

(** C4, as stated, fails on a not-modified answer: the answer carries no
    [cache-control] header, so the claim gives the entry [min_age = 1200]
    seconds, but the entry is written with the 60 seconds of the max-age
    directive of the previously cached feed. *)
Lemma not_modified_ttl_ignores_answer_without_directive :
  let old := Examples.feed_with 200 ["first post"] false (Some "max-age=60") None in
  let f304 := Examples.feed_with 304 [] false None None in
  let self := Examples.cache_of 1200 f304 in
  let w := Examples.holding (mkFeed old 10) in
  accepted f304 304 ∧
  max_age_directive f304 = None ∧
  cache_lookup self "u" (snd (fetch self 10 "u" w))
  = Some (mkFeed old (10 + timedelta 60)) ∧
  10 + timedelta 60 ≠ 10 + timedelta (min_age self).
Proof.
  intros old f304 self w. split; [|split; [|split]].
  - split; [reflexivity|]. split; [discriminate|].
    intros _. exists []. split; [reflexivity | done].
  - reflexivity.
  - vm_compute. reflexivity.
  - discriminate.
Qed.

(** C4, amended: for every accepted answer, the entry written to the
    cache expires [min(d, min_age)] seconds after the clock reading of
    [fetch] when the [cache-control] header of the payload being written
    -- the answer itself, or the previously cached feed when the answer
    is not-modified -- carries a max-age directive of value [d], and
    [min_age] seconds after it when that header carries none; so the
    expire time is never more than [min_age] seconds past the clock
    reading. *)
Theorem written_ttl (self : t) (now : datetime) (url : string) (w : world)
    (f p : FeedParserDict) (st : Z) :
  must_request self now url w →
  response self url w = Ok (Some f) →
  accepted f st →
  payload_of (cache_lookup self url w) f st = Some p →
  is_Some (headers p) →
  ∃ ttl w',
    fetch self now url w = (Ok p, w') ∧
    cache_lookup self url w' = Some (mkFeed p (now + timedelta ttl)) ∧
    ttl = bounded_ttl self (max_age_directive p) ∧
    now + timedelta ttl <= now + timedelta (min_age self).
Proof.
  intros Hreq Hresp Hacc Hp Hhs.
  exists (ttl_of self p). eexists. split; [by eapply fetch_accepted|].
  split; [apply lookup_updated|]. split; [apply ttl_of_directive|].
  rewrite ttl_of_directive.
  pose proof (timedelta_mono _ _ (bounded_ttl_le self (max_age_directive p))).
  lia.
Qed.

Lemma written_ttl_witness :
  let self := Examples.cache_of 1200 Examples.new_feed in
  let w := Examples.holding (mkFeed Examples.old_feed 10) in
  must_request self 10 "u" w ∧
  response self "u" w = Ok (Some Examples.new_feed) ∧
  accepted Examples.new_feed 200 ∧
  payload_of (cache_lookup self "u" w) Examples.new_feed 200
  = Some Examples.new_feed ∧
  is_Some (headers Examples.new_feed) ∧
  ∃ ttl w',
    fetch self 10 "u" w = (Ok Examples.new_feed, w') ∧
    cache_lookup self "u" w' = Some (mkFeed Examples.new_feed (10 + timedelta ttl)) ∧
    ttl = bounded_ttl self (max_age_directive Examples.new_feed) ∧
    10 + timedelta ttl <= 10 + timedelta (min_age self).
Proof.
  intros self w.
  assert (must_request self 10 "u" w) as Hreq by (vm_compute; discriminate).
  assert (accepted Examples.new_feed 200) as Hacc.
  { split; [reflexivity|]. split; [discriminate|].
    intros _. exists ["third post"]. split; [reflexivity | discriminate]. }
  assert (is_Some (headers Examples.new_feed)) as Hhs by (eexists; reflexivity).
  split; [exact Hreq|]. split; [reflexivity|]. split; [exact Hacc|].
  split; [reflexivity|]. split; [exact Hhs|].
  exact (written_ttl self 10 "u" w Examples.new_feed Examples.new_feed 200
           Hreq eq_refl Hacc eq_refl Hhs).
Defined.

(** ** Not-modified answers *)

(** A stale entry and an accepted not-modified answer: the cached feed is
    returned and written back, expiring [ttl_of] of the cached feed after
    the clock reading. *)
Lemma fetch_not_modified (self : t) (now : datetime) (url : string) (w : world)
    (c : Feed) (f : FeedParserDict) :
  cache_lookup self url w = Some c →
  expire_dt c <= now →
  response self url w = Ok (Some f) →
  accepted f NOT_MODIFIED →
  is_Some (headers (feed c)) →
  fetch self now url w
  = (Ok (feed c),
     updated self url (mkFeed (feed c) (now + timedelta (ttl_of self (feed c))))
       (requested self url w)).
Proof.
  intros Hc Hle Hresp Hacc Hhs.
  apply (fetch_accepted self now url w f (feed c) NOT_MODIFIED); try done.
  - unfold must_request. by rewrite Hc.
  - unfold payload_of. by rewrite Hc.
Qed.

(** C5, as stated, fails when the not-modified answer has no entries and
    the bozo flag set: the parse-error test comes first, so ParseError is
    raised, no payload is returned and the stale entry keeps its old
    expire time. *)
Lemma not_modified_malformed_raises :
  let f304 := Examples.feed_with 304 [] true None None in
  let self := Examples.cache_of 1200 f304 in
  let c := mkFeed Examples.old_feed 10 in
  let w := Examples.holding c in
  cache_lookup self "u" w = Some c ∧ expire_dt c <= 20 ∧
  status f304 = Some NOT_MODIFIED ∧
  fst (fetch self 20 "u" w) = Raise (ParseError "Parse error: not well-formed") ∧
  cache_lookup self "u" (snd (fetch self 20 "u" w)) = Some c.
Proof.
  intros f304 self c w.
  split; [reflexivity|]. split; [discriminate|]. split; [reflexivity|].
  split; vm_compute; reflexivity.
Qed.

(** C5, amended: with a stale cached entry and a not-modified answer that
    passes the parse-error test (it has entries, or its bozo flag is
    unset), the feed returned and the feed written back to the cache are
    the previously cached feed, not the answer, and the written entry
    expires a freshly computed lifetime after the clock reading of this
    call.  (The cached feed carries a headers mapping, as every feed that
    [fetch] writes does.) *)
Theorem not_modified_reuses_cached (self : t) (now : datetime) (url : string)
    (w : world) (c : Feed) (f : FeedParserDict) :
  cache_lookup self url w = Some c →
  expire_dt c <= now →
  response self url w = Ok (Some f) →
  accepted f NOT_MODIFIED →
  is_Some (headers (feed c)) →
  ∃ w',
    fetch self now url w = (Ok (feed c), w') ∧
    cache_lookup self url w'
    = Some (mkFeed (feed c) (now + timedelta (ttl_of self (feed c)))).
Proof.
  intros Hc Hle Hresp Hacc Hhs. eexists.
  split; [by eapply fetch_not_modified | apply lookup_updated].
Qed.

Lemma not_modified_reuses_cached_witness :
  let f304 := Examples.feed_with 304 [] false None None in
  let self := Examples.cache_of 1200 f304 in
  let c := mkFeed Examples.old_feed 10 in
  let w := Examples.holding c in
  cache_lookup self "u" w = Some c ∧
  expire_dt c <= 20 ∧
  response self "u" w = Ok (Some f304) ∧
  accepted f304 NOT_MODIFIED ∧
  is_Some (headers (feed c)) ∧
  ∃ w',
    fetch self 20 "u" w = (Ok (feed c), w') ∧
    cache_lookup self "u" w'
    = Some (mkFeed (feed c) (20 + timedelta (ttl_of self (feed c)))).
Proof.
  intros f304 self c w.
  assert (expire_dt c <= 20) as Hle by discriminate.
  assert (accepted f304 NOT_MODIFIED) as Hacc.
  { split; [reflexivity|]. split; [discriminate|].
    intros _. exists []. split; reflexivity. }
  assert (is_Some (headers (feed c))) as Hhs by (eexists; reflexivity).
  split; [reflexivity|]. split; [exact Hle|]. split; [reflexivity|].
  split; [exact Hacc|]. split; [exact Hhs|].
  exact (not_modified_reuses_cached self 20 "u" w c f304
           eq_refl Hle eq_refl Hacc Hhs).
Defined.

(** C6, as stated, fails: the not-modified answer carries
    [cache-control: max-age=60] and the cached feed carries no
    [cache-control] header; the entry is rewritten with [min_age = 1200]
    seconds, not with the 60 seconds of the answer's own header. *)
Lemma not_modified_ttl_ignores_answer_directive :
  let f304 := Examples.feed_with 304 [] false (Some "max-age=60") None in
  let self := Examples.cache_of 1200 f304 in
  let c := mkFeed Examples.old_feed 10 in
  let w := Examples.holding c in
  max_age_directive f304 = Some 60 ∧
  max_age_directive (feed c) = None ∧
  cache_lookup self "u" (snd (fetch self 20 "u" w))
  = Some (mkFeed Examples.old_feed (20 + timedelta 1200)) ∧
  20 + timedelta 1200 ≠ 20 + timedelta (Z.min 60 (min_age self)).
Proof.
  intros f304 self c w.
  split; [reflexivity|]. split; [reflexivity|].
  split; [vm_compute; reflexivity | discriminate].
Qed.

(** C6, amended: on an accepted not-modified answer the lifetime of the
    rewritten entry is derived from the [cache-control] header of the
    previously stored feed -- the minimum of its max-age directive and
    [min_age], or [min_age] when the stored feed carries no such
    directive -- whatever headers the not-modified answer itself has. *)
Theorem not_modified_ttl_from_cached (self : t) (now : datetime) (url : string)
    (w : world) (c : Feed) (f : FeedParserDict) :
  cache_lookup self url w = Some c →
  expire_dt c <= now →
  response self url w = Ok (Some f) →
  accepted f NOT_MODIFIED →
  is_Some (headers (feed c)) →
  ∃ entry,
    cache_lookup self url (snd (fetch self now url w)) = Some entry ∧
    expire_dt entry
    = now + timedelta (bounded_ttl self (max_age_directive (feed c))).
Proof.
  intros Hc Hle Hresp Hacc Hhs.
  rewrite (fetch_not_modified self now url w c f) by done.
  eexists. split; [apply lookup_updated|].
  simpl. by rewrite ttl_of_directive.
Qed.

Lemma not_modified_ttl_from_cached_witness :
  let old := Examples.feed_with 200 ["first post"] false (Some "max-age=60") None in
  let f304 := Examples.feed_with 304 [] false (Some "max-age=5") None in
  let self := Examples.cache_of 1200 f304 in
  let c := mkFeed old 10 in
  let w := Examples.holding c in
  cache_lookup self "u" w = Some c ∧
  expire_dt c <= 20 ∧
  response self "u" w = Ok (Some f304) ∧
  accepted f304 NOT_MODIFIED ∧
  is_Some (headers (feed c)) ∧
  ∃ entry,
    cache_lookup self "u" (snd (fetch self 20 "u" w)) = Some entry ∧
    expire_dt entry
    = 20 + timedelta (bounded_ttl self (max_age_directive (feed c))).
Proof.
  intros old f304 self c w.
  assert (expire_dt c <= 20) as Hle by discriminate.
  assert (accepted f304 NOT_MODIFIED) as Hacc.
  { split; [reflexivity|]. split; [discriminate|].
    intros _. exists []. split; reflexivity. }
  assert (is_Some (headers (feed c))) as Hhs by (eexists; reflexivity).
  split; [reflexivity|]. split; [exact Hle|]. split; [reflexivity|].
  split; [exact Hacc|]. split; [exact Hhs|].
  exact (not_modified_ttl_from_cached self 20 "u" w c f304
           eq_refl Hle eq_refl Hacc Hhs).
Defined.

(** C10, as stated, fails when the not-modified answer has no entries and
    the bozo flag set: with nothing cached, [fetch] raises ParseError,
    which belongs to the FetchError / ParseError taxonomy. *)
Lemma not_modified_uncached_malformed_raises_parse_error :
  let f304 := Examples.feed_with 304 [] true None None in
  let self := Examples.cache_of 1200 f304 in
  cache_lookup self "u" Examples.no_file = None ∧
  status f304 = Some NOT_MODIFIED ∧
  fst (fetch self 20 "u" Examples.no_file)
  = Raise (ParseError "Parse error: not well-formed") ∧
  in_taxonomy (ParseError "Parse error: not well-formed") = true.
Proof. vm_compute. repeat split; reflexivity. Qed.

(** C10, amended: when the cache holds no entry for the url and the
    collaborator nevertheless answers not-modified with a feed that does
    not meet the parse-error test (no entries together with the bozo
    flag), [fetch] returns no payload and writes nothing; it fails with
    an error outside the FetchError / ParseError taxonomy -- when the
    answer has an entries list, the AttributeError of reading the feed of
    the absent cache entry. *)
Theorem not_modified_without_cached (self : t) (now : datetime) (url : string)
    (w : world) (f : FeedParserDict) :
  cache_lookup self url w = None →
  response self url w = Ok (Some f) →
  status f = Some NOT_MODIFIED →
  ¬ malformed f →
  ∃ e,
    fetch self now url w = (Raise e, requested self url w) ∧
    in_taxonomy e = false ∧
    (is_Some (entries f) →
     e = AttributeError "'NoneType' object has no attribute 'feed'") ∧
    cache_untouched w (requested self url w) ∧
    cache_lookup self url (requested self url w) = None.
Proof.
  intros Hc Hresp Hst Hmal.
  assert (must_request self now url w) as Hreq
    by (unfold must_request; by rewrite Hc).
  rewrite (fetch_request _ _ _ _ Hreq), Hresp.
  destruct (cache_untouched_requested self url w) as [Hun Hsame].
  rewrite Hc in Hsame.
  destruct (entries f) as [es|] eqn:Hes.
  - assert (accepted f NOT_MODIFIED) as Hacc.
    { split; [done|]. split; [discriminate|].
      intros _. exists es. split; [done|]. intros ->.
      destruct (bozo f) eqn:Hb; [|done].
      exfalso. apply Hmal. by split. }
    eexists. split; [by apply store_fetched_nothing_to_reuse|].
    split; [done|]. split; [done|]. by split.
  - eexists. split.
    + unfold store_fetched. rewrite Hst. change (399 <? NOT_MODIFIED) with false.
      cbv iota. unfold bind at 1.
      change (NOT_MODIFIED <? 399) with true. cbv iota.
      rewrite Hes. reflexivity.
    + split; [done|]. split; [by intros [? [=]]|]. by split.
Qed.

Lemma not_modified_without_cached_witness :
  let f304 := Examples.feed_with 304 [] false None None in
  let self := Examples.cache_of 1200 f304 in
  let w := Examples.no_file in
  cache_lookup self "u" w = None ∧
  response self "u" w = Ok (Some f304) ∧
  status f304 = Some NOT_MODIFIED ∧
  ¬ malformed f304 ∧
  ∃ e,
    fetch self 20 "u" w = (Raise e, requested self "u" w) ∧
    in_taxonomy e = false ∧
    (is_Some (entries f304) →
     e = AttributeError "'NoneType' object has no attribute 'feed'") ∧
    cache_untouched w (requested self "u" w) ∧
    cache_lookup self "u" (requested self "u" w) = None.
Proof.
  intros f304 self w.
  assert (¬ malformed f304) as Hmal by (intros [_ Hb]; discriminate Hb).
  split; [reflexivity|]. split; [reflexivity|]. split; [reflexivity|].
  split; [exact Hmal|].
  exact (not_modified_without_cached self 20 "u" w f304
           eq_refl eq_refl eq_refl Hmal).
Defined.

(** ** Validators *)

(** The last-modified marker of a stale entry is passed on as stored. *)
Lemma stale_lastmod_unchanged (c : Feed) :
  stale_lastmod c = modified (feed c).
Proof. reflexivity. Qed.

(** A tag that starts with neither [W] nor [/] is passed on unchanged. *)
Lemma stale_etag_strong (c : Feed) (a : ascii) (s : string) :
  etag (feed c) = Some (String a s) →
  a ≠ "W"%char → a ≠ "/"%char →
  stale_etag c = Some (String a s).
Proof.
  intros He HW Hs. unfold stale_etag. rewrite He; simpl.
  apply Ascii.eqb_neq in HW, Hs. by rewrite HW, Hs.
Qed.

(** A weak tag loses its [W/] prefix when what follows the prefix starts
    with neither [W] nor [/] -- a quoted tag, for one. *)
Lemma stale_etag_weak (c : Feed) (a : ascii) (s : string) :
  etag (feed c) = Some ("W/" +:+ String a s) →
  a ≠ "W"%char → a ≠ "/"%char →
  stale_etag c = Some (String a s).
Proof.
  intros He HW Hs. unfold stale_etag. rewrite He; simpl.
  apply Ascii.eqb_neq in HW, Hs. by rewrite HW, Hs.
Qed.

(** C7 fails for a stored entity tag that starts with [W] without the
    weak prefix [W/]: the tag [Wabc123] should be passed on unchanged,
    but the collaborator receives [abc123].  Line 115 strips every
    leading [W] and [/] character, not the prefix [W/]. *)
Theorem unprefixed_etag_is_stripped :
  let old := Examples.feed_with 200 ["first post"] false None (Some "Wabc123") in
  let self := Examples.cache_of 1200 Examples.new_feed in
  let w := Examples.holding (mkFeed old 10) in
  strip_prefix "W/" "Wabc123" = None ∧
  parse_calls (trace (snd (fetch self 20 "u" w)))
  = [EvParse "u" (Some "abc123") (modified old)].
Proof. vm_compute. split; reflexivity. Qed.

(** ** The TTL cache *)

(** A write to another key leaves the entry of [key] as it is. *)
Lemma apply_write_other (d : ShelfCache.disk) (wr : ShelfCache.write) (key : string) :
  ShelfCache.w_key wr ≠ key →
  (ShelfCache.apply_write d wr ≫= λ shelf, shelf !! key)
  = (d ≫= λ shelf, shelf !! key).
Proof.
  intros Hne. unfold ShelfCache.apply_write, ShelfCache.create_or_update; simpl.
  rewrite lookup_insert_ne by done.
  destruct d; simpl; [done | apply lookup_empty].
Qed.

Lemma fold_writes_other (history : list ShelfCache.write) (d : ShelfCache.disk)
    (key : string) :
  (∀ wr, wr ∈ history → ShelfCache.w_key wr ≠ key) →
  (fold_left ShelfCache.apply_write history d ≫= λ shelf, shelf !! key)
  = (d ≫= λ shelf, shelf !! key).
Proof.
  revert d. induction history as [|wr history IH]; intros d Hne; simpl; [done|].
  rewrite IH.
  - apply apply_write_other, Hne. left.
  - intros wr' Hin. apply Hne. by right.
Qed.

(** C9: for a key that no write of the history was made to, [get] returns
    no result and the indexed read signals the not-found error
    ([KeyError]); both leave the store as it is. *)
Theorem never_written_key_is_missing (history : list ShelfCache.write)
    (key : string) (now : datetime) :
  (∀ wr, wr ∈ history → ShelfCache.w_key wr ≠ key) →
  ShelfCache.get now key (ShelfCache.after_writes history)
  = (Ok None, ShelfCache.after_writes history) ∧
  ShelfCache.getitem now key (ShelfCache.after_writes history)
  = (Raise (KeyError key), ShelfCache.after_writes history).
Proof.
  intros Hne.
  pose proof (fold_writes_other history None key Hne) as Hlook.
  fold (ShelfCache.after_writes history) in Hlook. simpl in Hlook.
  unfold ShelfCache.get, ShelfCache.getitem. rewrite Hlook.
  destruct (ShelfCache.after_writes history) as [shelf|]; simpl in *; [|done].
  by rewrite Hlook.
Qed.

Lemma never_written_key_is_missing_witness :
  let history :=
    [ShelfCache.mkWrite 5 "a" "alpha" (ShelfCache.ttl_seconds 10);
     ShelfCache.mkWrite 7 "b" "beta" ShelfCache.never_expires] in
  (∀ wr, wr ∈ history → ShelfCache.w_key wr ≠ "nonkey") ∧
  ShelfCache.get 9 "nonkey" (ShelfCache.after_writes history)
  = (Ok None, ShelfCache.after_writes history) ∧
  ShelfCache.getitem 9 "nonkey" (ShelfCache.after_writes history)
  = (Raise (KeyError "nonkey"), ShelfCache.after_writes history).
Proof.
  intros history.
  assert (∀ wr, wr ∈ history → ShelfCache.w_key wr ≠ "nonkey") as Hne.
  { intros wr Hin. unfold history in Hin.
    apply elem_of_cons in Hin as [-> | Hin]; [discriminate|].
    apply elem_of_cons in Hin as [-> | Hin]; [discriminate|].
    by apply elem_of_nil in Hin. }
  split; [exact Hne|].
  exact (never_written_key_is_missing history "nonkey" 9 Hne).
Defined.

(** A written key reads back with the staleness the specification gives:
    false strictly before the expire time, true from it on. *)
Lemma written_key_staleness (d : ShelfCache.disk) (t0 now s : Z)
    (key : string) (p : ShelfCache.payload) :
  ShelfCache.get now key
    (ShelfCache.create_or_update t0 key p (ShelfCache.ttl_seconds s) d)
  = (Ok (Some (p, bool_decide (t0 + timedelta s <= now))),
     ShelfCache.create_or_update t0 key p (ShelfCache.ttl_seconds s) d).
Proof.
  unfold ShelfCache.get, ShelfCache.create_or_update.
  rewrite lookup_insert_eq; simpl. unfold ShelfCache.is_stale; simpl.
  repeat f_equal. case_bool_decide; [apply Z.leb_le | apply Z.leb_gt]; lia.
Qed.

(** ** What [fetch] leaves on the shelf *)

(** [store_fetched] either raises in the world it started in, or returns
    a payload that carries headers and writes it. *)
Lemma store_fetched_cases (self : t) (now : datetime) (url : string)
    (cached : option Feed) (r : option FeedParserDict) (w : world) :
  (∃ e, store_fetched self now url cached r w = (Raise e, w)) ∨
  (∃ p, is_Some (headers p) ∧
        store_fetched self now url cached r w
        = (Ok p, updated self url (mkFeed p (now + timedelta (ttl_of self p))) w)).
Proof.
  destruct r as [f|]; [|left; by eexists].
  destruct (status f) as [st|] eqn:Hst;
    [|left; eexists; by apply store_fetched_no_status].
  destruct (Z.le_gt_cases 400 st) as [Hge|Hlt];
    [left; eexists; by apply store_fetched_http_error|].
  assert ((399 <? st) = false) as H399 by (apply Z.ltb_ge; lia).
  assert (accepted f st ∨
          (st < 399 ∧ (entries f = None ∨ malformed f))) as [Hacc|[Hlt' Hrej]].
  { destruct (Z.lt_ge_cases st 399) as [Hlt'|Hge'].
    - destruct (entries f) as [[|e es]|] eqn:Hes.
      + destruct (bozo f) eqn:Hb.
        * right. split; [done|]. right. by split.
        * left. split; [done|]. split; [lia|]. intros _. by exists [].
      + left. split; [done|]. split; [lia|]. intros _. by exists (e :: es).
      + right. split; [done|]. by left.
    - left. split; [done|]. split; [lia|]. intros ?. lia. }
  - destruct (payload_of cached f st) as [p|] eqn:Hp.
    + destruct (headers p) as [hs|] eqn:Hhs.
      * right. exists p. split; [by rewrite Hhs|].
        apply (store_fetched_accepted _ _ _ _ _ f p st); [done | done |].
        by rewrite Hhs.
      * left. eexists. unfold store_fetched. rewrite Hst, H399.
        unfold bind at 1. rewrite (accepted_not_rejected f st w Hacc).
        unfold bind at 1. unfold payload_of in Hp.
        destruct (st =? NOT_MODIFIED).
        -- destruct cached as [c|]; [|discriminate].
           injection Hp as <-. simpl. by rewrite Hhs.
        -- injection Hp as <-. simpl. by rewrite Hhs.
    + left. unfold payload_of in Hp.
      destruct (st =? NOT_MODIFIED) eqn:E; [|discriminate].
      apply Z.eqb_eq in E as ->.
      destruct cached; [discriminate|]. eexists.
      by apply store_fetched_nothing_to_reuse.
  - left. destruct Hrej as [Hes|Hmal].
    + eexists. unfold store_fetched. rewrite Hst, H399, Hes.
      assert ((st <? 399) = true) as -> by (apply Z.ltb_lt; lia).
      reflexivity.
    + eexists. by apply (store_fetched_malformed _ _ _ _ _ f st).
Qed.

(** [fetch] either leaves the shelf files as they are or writes, for the
    url, a payload that carries headers. *)
Lemma fetch_shelf_cases (self : t) (now : datetime) (url : string) (w : world) :
  fs (snd (fetch self now url w)) = fs w ∨
  ∃ p e, is_Some (headers p) ∧
         fs (snd (fetch self now url w))
         = <[path self := <[url := mkFeed p e]> (default ∅ (fs w !! path self))]>
             (fs w).
Proof.
  destruct (cache_lookup self url w) as [c|] eqn:Hc.
  - destruct (Z.lt_ge_cases now (expire_dt c)) as [Hlt|Hge].
    + left. by rewrite (fetch_fresh self now url w c).
    + rewrite fetch_request by (unfold must_request; by rewrite Hc).
      destruct (response self url w) as [r|e]; [|by left].
      destruct (store_fetched_cases self now url (cache_lookup self url w) r
                  (requested self url w)) as [[e ->]|(p & Hhs & ->)];
        [by left | right; by exists p, (now + timedelta (ttl_of self p))].
  - rewrite fetch_request by (unfold must_request; by rewrite Hc).
    destruct (response self url w) as [r|e]; [|by left].
    destruct (store_fetched_cases self now url (cache_lookup self url w) r
                (requested self url w)) as [[e ->]|(p & Hhs & ->)];
      [by left | right; by exists p, (now + timedelta (ttl_of self p))].
Qed.

(** The shelves only ever hold feeds with headers, so the headers of a
    cached feed can be read whenever an entry is reused. *)
Lemma fetch_keeps_headers (self : t) (now : datetime) (url : string) (w : world) :
  stored_with_headers w → stored_with_headers (snd (fetch self now url w)).
Proof.
  intros Hinv.
  destruct (fetch_shelf_cases self now url w) as [Heq|(p & e & Hhs & Heq)];
    unfold stored_with_headers; rewrite Heq; [done|].
  intros file shelf url' c Hfile Hurl.
  destruct (decide (path self = file)) as [<-|Hne].
  - rewrite lookup_insert_eq in Hfile. injection Hfile as <-.
    destruct (decide (url = url')) as [<-|Hne'].
    + rewrite lookup_insert_eq in Hurl. by injection Hurl as <-.
    + rewrite lookup_insert_ne in Hurl by done.
      destruct (fs w !! path self) as [old|] eqn:Hold; simpl in Hurl.
      * by eapply Hinv.
      * by rewrite lookup_empty in Hurl.
  - rewrite lookup_insert_ne in Hfile by done. by eapply Hinv.
Qed.

(** An accepted payload without a headers mapping raises before anything
    is written. *)
Lemma fetch_without_headers (self : t) (now : datetime) (url : string)
    (w : world) (f p : FeedParserDict) (st : Z) :
  must_request self now url w →
  response self url w = Ok (Some f) →
  accepted f st →
  payload_of (cache_lookup self url w) f st = Some p →
  headers p = None →
  fetch self now url w
  = (Raise (AttributeError "'NoneType' object has no attribute 'get'"),
     requested self url w).
Proof.
  intros Hreq Hresp Hacc Hp Hhs. pose proof Hacc as (Hst & Hle & _).
  rewrite (fetch_request _ _ _ _ Hreq), Hresp.
  unfold store_fetched. rewrite Hst.
  assert ((399 <? st) = false) as -> by (apply Z.ltb_ge; lia).
  unfold bind at 1. rewrite (accepted_not_rejected f st _ Hacc).
  unfold bind at 1. unfold payload_of in Hp.
  destruct (st =? NOT_MODIFIED).
  - destruct (cache_lookup self url w) as [c|]; [|discriminate].
    injection Hp as <-. simpl. by rewrite Hhs.
  - injection Hp as <-. simpl. by rewrite Hhs.
Qed.

(** ** The scenarios of the specification *)

(** Scenario A: nothing cached, [min_age = 1200], an answer with status
    200, three entries and no [cache-control] header. *)
Example scenario_first_fetch :
  let f := Examples.feed_with 200 ["a"; "b"; "c"] false None None in
  let self := Examples.cache_of 1200 f in
  fst (fetch self 1000000 "u" Examples.no_file) = Ok f ∧
  cache_lookup self "u" (snd (fetch self 1000000 "u" Examples.no_file))
  = Some (mkFeed f (1000000 + 1200 * 1000000)).
Proof. vm_compute. split; reflexivity. Qed.

(** Scenario B: a stale entry with the entity tag [abc]; the collaborator
    receives that tag, answers not-modified, and the stored feed comes
    back. *)
Example scenario_revalidation :
  let old := Examples.feed_with 200 ["first post"] false None (Some "abc") in
  let self := {| path := "feeds.db"; min_age := 1200;
                 parse := Examples.revalidating |} in
  let w := Examples.holding (mkFeed old 10) in
  fst (fetch self 20 "u" w) = Ok old ∧
  parse_calls (trace (snd (fetch self 20 "u" w)))
  = [EvParse "u" (Some "abc") (modified old)].
Proof. vm_compute. split; reflexivity. Qed.

(** Scenario D: [cache-control: max-age=60] with [min_age = 1200]. *)
Example scenario_max_age :
  let self := Examples.cache_of 1200 Examples.new_feed in
  cache_lookup self "u" (snd (fetch self 0 "u" Examples.no_file))
  = Some (mkFeed Examples.new_feed (60 * 1000000)).
Proof. vm_compute. reflexivity. Qed.

(** Scenario E: status 500 on a stale entry. *)
Example scenario_server_error :
  let f500 := Examples.feed_with 500 [] false None None in
  let self := Examples.cache_of 1200 f500 in
  let w := Examples.holding (mkFeed Examples.old_feed 10) in
  fst (fetch self 20 "u" w) = Raise (FetchError "HTTP error" (Some 500)) ∧
  fs (snd (fetch self 20 "u" w)) = fs w.
Proof. vm_compute. split; reflexivity. Qed.

(** A quoted weak tag reaches the collaborator without its prefix. *)
Example quoted_weak_etag :
  let quoted := String "034" ("abc" +:+ String "034" "") in
  lstrip ["W"; "/"]%char ("W/" +:+ quoted) = quoted.
Proof. reflexivity. Qed.

(** * Further properties of the cache *)

(** ** The three ways a call of [fetch] can end *)

(** Served from a fresh entry; raised after the collaborator call; or
    returned and wrote the collaborator's payload. *)
Lemma fetch_outcomes (self : t) (now : datetime) (url : string) (w : world) :
  (∃ c, cache_lookup self url w = Some c ∧ now < expire_dt c ∧
        fetch self now url w
        = (Ok (feed c), mkWorld (fs w) (trace w ++ [EvOpen (path self) flag_r])))
  ∨ (must_request self now url w ∧
     ∃ e, fetch self now url w = (Raise e, requested self url w))
  ∨ (must_request self now url w ∧
     ∃ p, is_Some (headers p) ∧
          fetch self now url w
          = (Ok p,
             updated self url (mkFeed p (now + timedelta (ttl_of self p)))
               (requested self url w))).
Proof.
  assert ((∃ c, cache_lookup self url w = Some c ∧ now < expire_dt c)
          ∨ must_request self now url w) as [(c & Hc & Hlt)|Hreq].
  { unfold must_request. destruct (cache_lookup self url w) as [c|]; [|by right].
    destruct (Z.lt_ge_cases now (expire_dt c)); [left; by exists c | by right]. }
  - left. exists c. split; [done|]. split; [done|]. by apply fetch_fresh.
  - right. rewrite (fetch_request _ _ _ _ Hreq).
    destruct (response self url w) as [r|e]; [|left; split; [done | by exists e]].
    destruct (store_fetched_cases self now url (cache_lookup self url w) r
                (requested self url w)) as [[e ->]|(p & Hhs & ->)].
    + left. split; [done | by exists e].
    + right. split; [done | by exists p].
Qed.

Lemma trace_requested (self : t) (url : string) (w : world) :
  trace (requested self url w)
  = trace w ++ read_events self w ++ [request_event self url w].
Proof. reflexivity. Qed.

Lemma read_events_present (self : t) (url : string) (w : world) (c : Feed) :
  cache_lookup self url w = Some c →
  read_events self w = [EvOpen (path self) flag_r].
Proof.
  unfold cache_lookup, read_events.
  destruct (fs w !! path self); [done | discriminate].
Qed.

(** ** The shelf accesses *)

(** X1: writing an entry and reading the same url back gives that entry;
    the write session creates the shelf file when it is missing, so the
    read that follows opens a session on it. *)
Theorem update_then_get (self : t) (url : string) (entry : Feed) (w : world) :
  (__update self url entry ;;; __get self url) w
  = (Ok (Some entry),
     mkWorld
       (<[path self := <[url := entry]> (default ∅ (fs w !! path self))]> (fs w))
       (trace w ++ [EvOpen (path self) flag_c; EvOpen (path self) flag_r])).
Proof.
  unfold bind. rewrite update_spec, get_spec, lookup_updated.
  unfold read_events, updated; simpl. rewrite lookup_insert_eq.
  by rewrite <- app_assoc.
Qed.

(** X2: a write touches one url of one shelf file: every other url of the
    file and every other file read as before. *)
Theorem update_leaves_others (self : t) (url : string) (entry : Feed) (w : world) :
  (∀ url', url' ≠ url →
     cache_lookup self url' (snd (__update self url entry w))
     = cache_lookup self url' w) ∧
  (∀ file, file ≠ path self →
     fs (snd (__update self url entry w)) !! file = fs w !! file).
Proof.
  rewrite update_spec; simpl. split.
  - intros url' Hne. by apply lookup_updated_ne.
  - intros file Hne. by rewrite lookup_insert_ne.
Qed.

(** X3: writes overwrite: after two writes to a url the shelf files are
    those after the second write alone. *)
Theorem update_overwrites (self : t) (url : string) (e1 e2 : Feed) (w : world) :
  fs (snd ((__update self url e1 ;;; __update self url e2) w))
  = fs (snd (__update self url e2 w)).
Proof.
  unfold bind. rewrite !update_spec; simpl.
  rewrite lookup_insert_eq; simpl.
  by rewrite insert_insert_eq, insert_insert_eq.
Qed.

(** ** Outcomes of [fetch] *)

(** X4: whatever [fetch] returns is what the cache holds for the url
    afterwards. *)
Theorem fetch_returns_what_is_cached (self : t) (now : datetime) (url : string)
    (w w' : world) (p : FeedParserDict) :
  fetch self now url w = (Ok p, w') →
  ∃ c, cache_lookup self url w' = Some c ∧ feed c = p.
Proof.
  intros Hf.
  destruct (fetch_outcomes self now url w)
    as [(c & Hc & _ & Heq)|[(_ & e & Heq)|(_ & q & _ & Heq)]];
    rewrite Heq in Hf.
  - injection Hf as <- <-. by exists c.
  - discriminate.
  - injection Hf as <- <-. eexists. split; [apply lookup_updated | done].
Qed.

Lemma fetch_returns_what_is_cached_witness :
  let self := Examples.cache_of 1200 Examples.new_feed in
  let w' := updated self "u" (mkFeed Examples.new_feed (timedelta 60))
              (requested self "u" Examples.no_file) in
  fetch self 0 "u" Examples.no_file = (Ok Examples.new_feed, w') ∧
  ∃ c, cache_lookup self "u" w' = Some c ∧ feed c = Examples.new_feed.
Proof.
  intros self w'.
  assert (fetch self 0 "u" Examples.no_file = (Ok Examples.new_feed, w')) as Hf
    by (vm_compute; reflexivity).
  split; [exact Hf|].
  exact (fetch_returns_what_is_cached self 0 "u" Examples.no_file w'
           Examples.new_feed Hf).
Defined.



(** X6: an exception raised by the collaborator itself (a URLError, say)
    comes out of [fetch] as it is, after the read of the cache and the one
    call that raised; nothing is written. *)
Theorem fetch_propagates_collaborator_error (self : t) (now : datetime)
    (url : string) (w : world) (e : exn) :
  must_request self now url w →
  response self url w = Raise e →
  fetch self now url w = (Raise e, requested self url w) ∧
  fs (requested self url w) = fs w ∧
  trace (requested self url w)
  = trace w ++ read_events self w ++ [request_event self url w].
Proof.
  intros Hreq Hresp. rewrite (fetch_request _ _ _ _ Hreq), Hresp. by repeat split.
Qed.

Lemma fetch_propagates_collaborator_error_witness :
  let self := {| path := "feeds.db"; min_age := 1200;
                 parse := λ _ _ _, Raise (URLError "Name or service not known") |} in
  let w := Examples.holding (mkFeed Examples.old_feed 10) in
  must_request self 20 "u" w ∧
  response self "u" w = Raise (URLError "Name or service not known") ∧
  fetch self 20 "u" w
  = (Raise (URLError "Name or service not known"), requested self "u" w) ∧
  fs (requested self "u" w) = fs w ∧
  trace (requested self "u" w)
  = trace w ++ read_events self w ++ [request_event self "u" w].
Proof.
  intros self w.
  assert (must_request self 20 "u" w) as Hreq by (vm_compute; discriminate).
  split; [exact Hreq|]. split; [reflexivity|].
  exact (fetch_propagates_collaborator_error self 20 "u" w _ Hreq eq_refl).
Defined.

(** X7: [fetch] only ever touches the entry of its own url: the entries
    of all other urls, and all other shelf files, are as before, whatever
    the outcome. *)
Theorem fetch_leaves_others (self : t) (now : datetime) (url : string) (w : world) :
  (∀ url', url' ≠ url →
     cache_lookup self url' (snd (fetch self now url w))
     = cache_lookup self url' w) ∧
  (∀ file, file ≠ path self →
     fs (snd (fetch self now url w)) !! file = fs w !! file).
Proof.
  destruct (fetch_outcomes self now url w)
    as [(c & _ & _ & ->)|[(_ & e & ->)|(_ & q & _ & ->)]]; simpl;
    try (split; done).
  split.
  - intros url' Hne. by rewrite lookup_updated_ne.
  - intros file Hne. by rewrite lookup_insert_ne.
Qed.


(** ** Two calls in a row *)

Lemma must_request_wrote (self : t) (now : datetime) (url : string)
    (w w1 : world) (p : FeedParserDict) :
  must_request self now url w →
  fetch self now url w = (Ok p, w1) →
  w1 = updated self url (mkFeed p (now + timedelta (ttl_of self p)))
         (requested self url w).
Proof.
  intros Hreq Hf.
  destruct (fetch_outcomes self now url w)
    as [(c & Hc & Hlt & _)|[(_ & e & Heq)|(_ & q & _ & Heq)]].
  - unfold must_request in Hreq. rewrite Hc in Hreq. lia.
  - rewrite Heq in Hf. discriminate.
  - rewrite Heq in Hf. by injection Hf as <- <-.
Qed.

(** X9: after a call that fetched and returned a feed, a second call
    made before the granted lifetime has elapsed returns the same feed,
    without calling the collaborator and without writing. *)
Theorem fetch_again_is_served (self : t) (now now' : datetime) (url : string)
    (w w1 : world) (p : FeedParserDict) :
  must_request self now url w →
  fetch self now url w = (Ok p, w1) →
  now' < now + timedelta (ttl_of self p) →
  ∃ w2, fetch self now' url w1 = (Ok p, w2) ∧
        parse_calls (trace w2) = parse_calls (trace w1) ∧
        cache_untouched w1 w2.
Proof.
  intros Hreq Hf Hlt.
  rewrite (must_request_wrote self now url w w1 p Hreq Hf).
  eexists. split.
  - apply (fetch_fresh self now' url _
             (mkFeed p (now + timedelta (ttl_of self p))));
      [apply lookup_updated | done].
  - unfold cache_untouched; simpl.
    rewrite parse_calls_app, write_sessions_app; simpl.
    by rewrite !app_nil_r.
Qed.

Lemma fetch_again_is_served_witness :
  let self := Examples.cache_of 1200 Examples.new_feed in
  let w := Examples.no_file in
  let w1 := updated self "u" (mkFeed Examples.new_feed (timedelta 60))
              (requested self "u" w) in
  must_request self 0 "u" w ∧
  fetch self 0 "u" w = (Ok Examples.new_feed, w1) ∧
  59999999 < 0 + timedelta (ttl_of self Examples.new_feed) ∧
  ∃ w2, fetch self 59999999 "u" w1 = (Ok Examples.new_feed, w2) ∧
        parse_calls (trace w2) = parse_calls (trace w1) ∧
        cache_untouched w1 w2.
Proof.
  intros self w w1.
  assert (fetch self 0 "u" w = (Ok Examples.new_feed, w1)) as Hf
    by (vm_compute; reflexivity).
  split; [exact I|]. split; [exact Hf|]. split; [reflexivity|].
  exact (fetch_again_is_served self 0 59999999 "u" w w1 Examples.new_feed
           I Hf eq_refl).
Defined.

(** X10: once the granted lifetime has elapsed (exactly at the expire
    time included), the next call goes back to the collaborator, with the
    validators of the feed that the first call stored. *)
Theorem fetch_again_revalidates (self : t) (now now' : datetime) (url : string)
    (w w1 : world) (p : FeedParserDict) :
  must_request self now url w →
  fetch self now url w = (Ok p, w1) →
  now + timedelta (ttl_of self p) <= now' →
  ∃ rest,
    trace (snd (fetch self now' url w1))
    = trace w1 ++ EvOpen (path self) flag_r
        :: EvParse url (stale_etag (mkFeed p 0)) (modified p) :: rest.
Proof.
  intros Hreq Hf Hle.
  rewrite (must_request_wrote self now url w w1 p Hreq Hf).
  set (entry := mkFeed p (now + timedelta (ttl_of self p))).
  set (w1' := updated self url entry (requested self url w)).
  assert (cache_lookup self url w1' = Some entry) as Hc by apply lookup_updated.
  assert (trace (requested self url w1')
          = trace w1' ++ [EvOpen (path self) flag_r;
                          EvParse url (stale_etag (mkFeed p 0)) (modified p)])
    as Htr.
  { rewrite trace_requested, (read_events_present self url w1' entry Hc).
    unfold request_event. by rewrite Hc. }
  destruct (fetch_outcomes self now' url w1')
    as [(c & Hc' & Hlt & _)|[(_ & e & ->)|(_ & q & _ & ->)]].
  - rewrite Hc in Hc'. injection Hc' as <-. simpl in Hlt. lia.
  - exists []. cbn [snd]. by rewrite Htr.
  - exists [EvOpen (path self) flag_c]. cbn [snd updated trace]. rewrite Htr.
    by rewrite <- app_assoc.
Qed.

Lemma fetch_again_revalidates_witness :
  let self := Examples.cache_of 1200 Examples.new_feed in
  let w := Examples.no_file in
  let w1 := updated self "u" (mkFeed Examples.new_feed (timedelta 60))
              (requested self "u" w) in
  must_request self 0 "u" w ∧
  fetch self 0 "u" w = (Ok Examples.new_feed, w1) ∧
  0 + timedelta (ttl_of self Examples.new_feed) <= 60000000 ∧
  ∃ rest,
    trace (snd (fetch self 60000000 "u" w1))
    = trace w1 ++ EvOpen (path self) flag_r
        :: EvParse "u" (stale_etag (mkFeed Examples.new_feed 0))
             (modified Examples.new_feed) :: rest.
Proof.
  intros self w w1.
  assert (fetch self 0 "u" w = (Ok Examples.new_feed, w1)) as Hf
    by (vm_compute; reflexivity).
  assert (0 + timedelta (ttl_of self Examples.new_feed) <= 60000000) as Hle
    by (vm_compute; discriminate).
  split; [exact I|]. split; [exact Hf|]. split; [exact Hle|].
  exact (fetch_again_revalidates self 0 60000000 "u" w w1 Examples.new_feed
           I Hf Hle).
Defined.

(** ** Cache misses *)

(** X11: when the cache holds nothing for the url, the collaborator is
    called with no entity tag and no last-modified marker. *)
Theorem fetch_miss_sends_no_validators (self : t) (now : datetime) (url : string)
    (w : world) :
  cache_lookup self url w = None →
  ∃ rest,
    trace (snd (fetch self now url w))
    = trace w ++ read_events self w ++ EvParse url None None :: rest ∧
    (rest = [] ∨ rest = [EvOpen (path self) flag_c]).
Proof.
  intros Hc.
  assert (request_event self url w = EvParse url None None) as Hev
    by (unfold request_event; by rewrite Hc).
  destruct (fetch_outcomes self now url w)
    as [(c & Hc' & _)|[(_ & e & ->)|(_ & q & _ & ->)]].
  - rewrite Hc in Hc'. discriminate.
  - exists []. cbn [snd]. rewrite trace_requested, Hev. split; [done | by left].
  - exists [EvOpen (path self) flag_c]. cbn [snd updated trace].
    rewrite trace_requested, Hev.
    split; [by rewrite <- !app_assoc | by right].
Qed.

Lemma fetch_miss_sends_no_validators_witness :
  let self := Examples.cache_of 1200 Examples.new_feed in
  let w := Examples.holding (mkFeed Examples.old_feed 10) in
  cache_lookup self "other" w = None ∧
  ∃ rest,
    trace (snd (fetch self 20 "other" w))
    = trace w ++ read_events self w ++ EvParse "other" None None :: rest ∧
    (rest = [] ∨ rest = [EvOpen (path self) flag_c]).
Proof.
  intros self w. split; [reflexivity|].
  exact (fetch_miss_sends_no_validators self 20 "other" w eq_refl).
Defined.

(** X12: the first successful call on a path without a shelf file
    creates the file, holding the fetched url and nothing else. *)
Theorem fetch_creates_shelf_file (self : t) (now : datetime) (url : string)
    (w w' : world) (p : FeedParserDict) :
  fs w !! path self = None →
  fetch self now url w = (Ok p, w') →
  fs w' !! path self
  = Some {[url := mkFeed p (now + timedelta (ttl_of self p))]}.
Proof.
  intros Hnone Hf.
  assert (must_request self now url w) as Hreq.
  { unfold must_request, cache_lookup. by rewrite Hnone. }
  rewrite (must_request_wrote self now url w w' p Hreq Hf).
  unfold updated, requested; simpl.
  rewrite lookup_insert_eq, Hnone; simpl. by rewrite insert_empty.
Qed.

Lemma fetch_creates_shelf_file_witness :
  let self := Examples.cache_of 1200 Examples.new_feed in
  let w := Examples.no_file in
  let w' := updated self "u" (mkFeed Examples.new_feed (timedelta 60))
              (requested self "u" w) in
  fs w !! path self = None ∧
  fetch self 0 "u" w = (Ok Examples.new_feed, w') ∧
  fs w' !! path self
  = Some {["u" := mkFeed Examples.new_feed
                    (0 + timedelta (ttl_of self Examples.new_feed))]}.
Proof.
  intros self w w'.
  assert (fetch self 0 "u" w = (Ok Examples.new_feed, w')) as Hf
    by (vm_compute; reflexivity).
  split; [reflexivity|]. split; [exact Hf|].
  exact (fetch_creates_shelf_file self 0 "u" w w' Examples.new_feed eq_refl Hf).
Defined.

(** ** The entity tag sent for revalidation *)

Lemma lstrip_split (chars : list ascii) (s : string) :
  ∃ pre, s = pre +:+ lstrip chars s ∧
         only_chars chars pre = true ∧
         starts_with_any chars (lstrip chars s) = false.
Proof.
  induction s as [|a s (pre & Hs & Hpre & Hrest)]; [by exists ""|].
  simpl. destruct (existsb (Ascii.eqb a) chars) eqn:E.
  - exists (String a pre). rewrite append_cons, <- Hs; simpl. by rewrite E, Hpre.
  - exists "". simpl. by rewrite E.
Qed.

(** X13: no entity tag is sent when the stored feed has none or an empty
    one; otherwise the tag sent is the stored tag without its longest
    prefix made of the characters [W] and [/], so it never begins with
    either of them. *)
Theorem stale_etag_strips_leading_chars (c : Feed) :
  match etag (feed c) with
  | None | Some EmptyString => stale_etag c = None
  | Some stored =>
      ∃ pre sent, stored = pre +:+ sent ∧ stale_etag c = Some sent ∧
                  only_chars ["W"; "/"]%char pre = true ∧
                  starts_with_any ["W"; "/"]%char sent = false
  end.
Proof.
  unfold stale_etag. destruct (etag (feed c)) as [[|a s]|]; [done| |done].
  cbn [truthy fmap option_fmap option_map].
  destruct (lstrip_split ["W"; "/"]%char (String a s)) as (pre & Hs & Hpre & Hsent).
  by exists pre, (lstrip ["W"; "/"]%char (String a s)).
Qed.

(** ** The regular expression *)

Lemma match_max_age_digit (c : ascii) (rest : string) :
  is_digit c = true →
  match_max_age ("max-age=" +:+ String c rest) ≠ None.
Proof.
  intros Hc. unfold match_max_age. rewrite strip_prefix_app. simpl.
  by rewrite Hc.
Qed.

(** X14: what the search returns is the non-empty, maximal run of digits
    after the leftmost [max-age=] that a digit follows. *)
Theorem search_max_age_finds_leftmost (s ds : string) :
  search_max_age s = Some ds →
  ∃ pre rest,
    s = pre +:+ "max-age=" +:+ ds +:+ rest ∧
    ds ≠ "" ∧ all_digits ds = true ∧ take_digits rest = "" ∧
    ∀ pre' c rest', is_digit c = true →
      s = pre' +:+ "max-age=" +:+ String c rest' →
      (String.length pre <= String.length pre')%nat.
Proof.
  revert ds. induction s as [|a s IH]; intros ds; [discriminate|].
  cbn [search_max_age].
  destruct (match_max_age (String a s)) as [d|] eqn:E.
  - intros [= ->].
    destruct (match_max_age_Some _ _ E) as (rest & Hs & Hne & Hd & Hrest).
    exists "", rest. repeat split; try done. intros; simpl; lia.
  - intros H. destruct (IH ds H) as (pre & rest & Hs & Hne & Hd & Hrest & Hleft).
    exists (String a pre), rest. rewrite append_cons, <- Hs.
    repeat split; try done.
    intros [|b pre'] c rest' Hc Heq.
    + rewrite append_nil_l in Heq. rewrite Heq in E.
      by apply match_max_age_digit in E.
    + rewrite append_cons in Heq. injection Heq as _ Heq.
      simpl. apply le_n_S. by eapply Hleft.
Qed.

Lemma search_max_age_finds_leftmost_witness :
  search_max_age "max-age=, s-max-age=0300;max-age=7" = Some "0300" ∧
  ∃ pre rest,
    "max-age=, s-max-age=0300;max-age=7" = pre +:+ "max-age=" +:+ "0300" +:+ rest ∧
    "0300" ≠ "" ∧ all_digits "0300" = true ∧ take_digits rest = "" ∧
    ∀ pre' c rest', is_digit c = true →
      "max-age=, s-max-age=0300;max-age=7" = pre' +:+ "max-age=" +:+ String c rest' →
      (String.length pre <= String.length pre')%nat.
Proof.
  split; [reflexivity|].
  exact (search_max_age_finds_leftmost "max-age=, s-max-age=0300;max-age=7" "0300"
           eq_refl).
Defined.

(** X15: the search finds nothing exactly when [max-age=] is nowhere in
    the header followed by a digit. *)
Theorem search_max_age_None_iff (s : string) :
  search_max_age s = None ↔
  ∀ pre c rest, is_digit c = true → s ≠ pre +:+ "max-age=" +:+ String c rest.
Proof.
  split; [apply search_max_age_None|].
  intros Hno. destruct (search_max_age s) as [ds|] eqn:E; [|done].
  destruct (search_max_age_Some s ds E) as (pre & rest & Hs & Hne & Hd & _).
  destruct ds as [|c ds]; [done|].
  simpl in Hd. apply andb_prop in Hd as [Hc _].
  exfalso. apply (Hno pre c (ds +:+ rest) Hc). by rewrite Hs.
Qed.

(** ** Lifetimes *)

Lemma ttl_of_nonneg (self : t) (p : FeedParserDict) :
  0 <= min_age self → 0 <= ttl_of self p.
Proof.
  intros Hmin. unfold ttl_of, effective_min_age.
  destruct (search_max_age (default "" (cache_control p))) as [ds|] eqn:E; [|done].
  destruct (search_max_age_Some _ _ E) as (_ & _ & _ & _ & Hd & _).
  pose proof (int_acc_nonneg ds 0 Hd ltac:(lia)). unfold int. lia.
Qed.

(** X16: with a [min_age] that is not negative, an entry written by
    [fetch] never expires before the clock reading of the call that wrote
    it, nor more than [min_age] seconds after it. *)
Theorem written_expiry_window (self : t) (now : datetime) (url : string)
    (w w' : world) (p : FeedParserDict) :
  0 <= min_age self →
  must_request self now url w →
  fetch self now url w = (Ok p, w') →
  ∃ c, cache_lookup self url w' = Some c ∧
       now <= expire_dt c ∧ expire_dt c <= now + timedelta (min_age self).
Proof.
  intros Hmin Hreq Hf.
  rewrite (must_request_wrote self now url w w' p Hreq Hf).
  eexists. split; [apply lookup_updated|]. simpl.
  pose proof (ttl_of_nonneg self p Hmin).
  pose proof (bounded_ttl_le self (max_age_directive p)) as Hle.
  rewrite <- ttl_of_directive in Hle. unfold timedelta. lia.
Qed.

Lemma written_expiry_window_witness :
  let self := Examples.cache_of 1200 Examples.new_feed in
  let w := Examples.no_file in
  let w' := updated self "u" (mkFeed Examples.new_feed (timedelta 60))
              (requested self "u" w) in
  0 <= min_age self ∧
  must_request self 0 "u" w ∧
  fetch self 0 "u" w = (Ok Examples.new_feed, w') ∧
  ∃ c, cache_lookup self "u" w' = Some c ∧
       0 <= expire_dt c ∧ expire_dt c <= 0 + timedelta (min_age self).
Proof.
  intros self w w'.
  assert (0 <= min_age self) as Hmin by discriminate.
  assert (fetch self 0 "u" w = (Ok Examples.new_feed, w')) as Hf
    by (vm_compute; reflexivity).
  split; [exact Hmin|]. split; [exact I|]. split; [exact Hf|].
  exact (written_expiry_window self 0 "u" w w' Examples.new_feed Hmin I Hf).
Defined.

(** ** Sequences of calls *)

Lemma after_calls_keep_headers (calls : list call) (w : world) :
  stored_with_headers w → stored_with_headers (after_calls calls w).
Proof.
  revert w. induction calls as [|c calls IH]; intros w Hinv; [done|].
  apply IH. by apply fetch_keeps_headers.
Qed.

(** X17: starting without any shelf file, whatever calls of [fetch] are
    made -- on whatever caches, urls and collaborators, succeeding or not --
    every feed found on a shelf afterwards carries a headers mapping. *)
Theorem shelves_hold_feeds_with_headers (calls : list call) (tr : list event) :
  stored_with_headers (after_calls calls {| fs := ∅; trace := tr |}).
Proof.
  apply after_calls_keep_headers.
  intros file shelf url c Hfile. simpl in Hfile.
  by rewrite lookup_empty in Hfile.
Qed.

(** ** Converses: what a given outcome says about the answer *)

Lemma accepted_or_rejected (f : FeedParserDict) (st : Z) :
  status f = Some st → st <= 399 →
  accepted f st ∨ (st < 399 ∧ (entries f = None ∨ malformed f)).
Proof.
  intros Hst Hle. destruct (Z.lt_ge_cases st 399) as [Hlt|Hge].
  - destruct (entries f) as [[|e es]|] eqn:Hes.
    + destruct (bozo f) eqn:Hb.
      * right. split; [done|]. right. by split.
      * left. split; [done|]. split; [lia|]. intros _. by exists [].
    + left. split; [done|]. split; [lia|]. intros _. by exists (e :: es).
    + right. split; [done|]. by left.
  - left. split; [done|]. split; [lia|]. intros ?. lia.
Qed.

Lemma store_fetched_missing_entries (self : t) (now : datetime) (url : string)
    (cached : option Feed) (w : world) (f : FeedParserDict) (st : Z) :
  status f = Some st → st < 399 → entries f = None →
  store_fetched self now url cached (Some f) w
  = (Raise (TypeError "object of type 'NoneType' has no len()"), w).
Proof.
  intros Hst Hlt Hes. unfold store_fetched. rewrite Hst, Hes.
  assert ((399 <? st) = false) as -> by (apply Z.ltb_ge; lia).
  assert ((st <? 399) = true) as -> by (apply Z.ltb_lt; lia).
  reflexivity.
Qed.

(** The outcome of an accepted answer, by payload. *)
Lemma store_fetched_accepted_outcome (self : t) (now : datetime) (url : string)
    (cached : option Feed) (w : world) (f : FeedParserDict) (st : Z) :
  accepted f st →
  match payload_of cached f st with
  | Some p =>
      match headers p with
      | Some _ =>
          store_fetched self now url cached (Some f) w
          = (Ok p, updated self url (mkFeed p (now + timedelta (ttl_of self p))) w)
      | None =>
          store_fetched self now url cached (Some f) w
          = (Raise (AttributeError "'NoneType' object has no attribute 'get'"), w)
      end
  | None =>
      store_fetched self now url cached (Some f) w
      = (Raise (AttributeError "'NoneType' object has no attribute 'feed'"), w)
  end.
Proof.
  intros Hacc. pose proof Hacc as (Hst & Hle & _).
  destruct (payload_of cached f st) as [p|] eqn:Hp.
  - destruct (headers p) as [hs|] eqn:Hhs.
    + apply (store_fetched_accepted _ _ _ _ _ f p st); [done | done |].
      by rewrite Hhs.
    + unfold store_fetched. rewrite Hst.
      assert ((399 <? st) = false) as -> by (apply Z.ltb_ge; lia).
      unfold bind at 1. rewrite (accepted_not_rejected f st w Hacc).
      unfold bind at 1. unfold payload_of in Hp.
      destruct (st =? NOT_MODIFIED).
      * destruct cached as [c|]; [|discriminate].
        injection Hp as <-. simpl. by rewrite Hhs.
      * injection Hp as <-. simpl. by rewrite Hhs.
  - unfold payload_of in Hp.
    destruct (st =? NOT_MODIFIED) eqn:E; [|discriminate].
    apply Z.eqb_eq in E as ->. destruct cached; [discriminate|].
    by apply store_fetched_nothing_to_reuse.
Qed.

(** X18: a FetchError or ParseError that leaves [fetch] always has one of
    three causes: the answer carried no status; its status was 400 or
    more; or its status was below 399 with no entries and the bozo flag
    set.  No other answer makes [fetch] raise either of the two. *)
Theorem fetch_taxonomy_causes (self : t) (now : datetime) (url : string)
    (w w' : world) (r : option FeedParserDict) (e : exn) :
  must_request self now url w →
  response self url w = Ok r →
  fetch self now url w = (Raise e, w') →
  in_taxonomy e = true →
  (no_status r ∧ e = FetchError "Failed to fetch feed" None) ∨
  (∃ f st, r = Some f ∧ status f = Some st ∧ 400 <= st ∧
           e = FetchError "HTTP error" (Some st)) ∨
  (∃ f st, r = Some f ∧ status f = Some st ∧ st < 399 ∧ malformed f ∧
           e = ParseError ("Parse error: " +:+ format_opt (bozo_exception f))).
Proof.
  intros Hreq Hresp Hf Htax.
  rewrite (fetch_request _ _ _ _ Hreq), Hresp in Hf.
  destruct r as [f|].
  2:{ left. simpl in Hf. injection Hf as <- _. by split. }
  destruct (status f) as [st|] eqn:Hst.
  2:{ left. rewrite (store_fetched_no_status _ _ _ _ _ (Some f) Hst) in Hf.
      injection Hf as <- _. by split. }
  destruct (Z.le_gt_cases 400 st) as [Hge|Hlt].
  { right; left. rewrite (store_fetched_http_error _ _ _ _ _ f st Hst Hge) in Hf.
    injection Hf as <- _. by exists f, st. }
  destruct (accepted_or_rejected f st Hst ltac:(lia)) as [Hacc|[Hlt' [Hes|Hmal]]].
  - pose proof (store_fetched_accepted_outcome self now url
                  (cache_lookup self url w) (requested self url w) f st Hacc) as Hout.
    destruct (payload_of (cache_lookup self url w) f st) as [p|].
    + destruct (headers p); rewrite Hout in Hf; [discriminate|].
      injection Hf as <- _. discriminate Htax.
    + rewrite Hout in Hf. injection Hf as <- _. discriminate Htax.
  - rewrite (store_fetched_missing_entries _ _ _ _ _ f st Hst Hlt' Hes) in Hf.
    injection Hf as <- _. discriminate Htax.
  - right; right.
    rewrite (store_fetched_malformed _ _ _ _ _ f st Hst Hlt' Hmal) in Hf.
    injection Hf as <- _. by exists f, st.
Qed.

Lemma fetch_taxonomy_causes_witness :
  let f := Examples.feed_with 200 [] true None None in
  let self := Examples.cache_of 1200 f in
  let w := Examples.no_file in
  let e := ParseError "Parse error: not well-formed" in
  must_request self 0 "u" w ∧
  response self "u" w = Ok (Some f) ∧
  fetch self 0 "u" w = (Raise e, requested self "u" w) ∧
  in_taxonomy e = true ∧
  ((no_status (Some f) ∧ e = FetchError "Failed to fetch feed" None) ∨
   (∃ f' st, Some f = Some f' ∧ status f' = Some st ∧ 400 <= st ∧
             e = FetchError "HTTP error" (Some st)) ∨
   (∃ f' st, Some f = Some f' ∧ status f' = Some st ∧ st < 399 ∧ malformed f' ∧
             e = ParseError ("Parse error: " +:+ format_opt (bozo_exception f')))).
Proof.
  intros f self w e.
  assert (fetch self 0 "u" w = (Raise e, requested self "u" w)) as Hf
    by (vm_compute; reflexivity).
  split; [exact I|]. split; [reflexivity|]. split; [exact Hf|].
  split; [reflexivity|].
  exact (fetch_taxonomy_causes self 0 "u" w _ (Some f) e I eq_refl Hf eq_refl).
Defined.

(** X19: a feed that [fetch] returns after calling the collaborator
    always stems from an accepted answer -- one with a status of at most
    399 that did not meet the parse-error test -- and is that answer, or
    the cached feed when the status is not-modified.  An answer without a
    status or with a status of 400 or more is never returned or cached. *)
Theorem fetch_returns_accepted_only (self : t) (now : datetime) (url : string)
    (w w' : world) (r : option FeedParserDict) (p : FeedParserDict) :
  must_request self now url w →
  response self url w = Ok r →
  fetch self now url w = (Ok p, w') →
  ∃ f st, r = Some f ∧ accepted f st ∧
          payload_of (cache_lookup self url w) f st = Some p.
Proof.
  intros Hreq Hresp Hf.
  rewrite (fetch_request _ _ _ _ Hreq), Hresp in Hf.
  destruct r as [f|]; [|discriminate].
  destruct (status f) as [st|] eqn:Hst.
  2:{ by rewrite (store_fetched_no_status _ _ _ _ _ (Some f) Hst) in Hf. }
  destruct (Z.le_gt_cases 400 st) as [Hge|Hlt].
  { by rewrite (store_fetched_http_error _ _ _ _ _ f st Hst Hge) in Hf. }
  destruct (accepted_or_rejected f st Hst ltac:(lia)) as [Hacc|[Hlt' [Hes|Hmal]]].
  - pose proof (store_fetched_accepted_outcome self now url
                  (cache_lookup self url w) (requested self url w) f st Hacc) as Hout.
    exists f, st. split; [done|]. split; [done|].
    destruct (payload_of (cache_lookup self url w) f st) as [q|].
    + destruct (headers q); rewrite Hout in Hf; [|discriminate].
      by injection Hf as <- _.
    + rewrite Hout in Hf. discriminate.
  - by rewrite (store_fetched_missing_entries _ _ _ _ _ f st Hst Hlt' Hes) in Hf.
  - by rewrite (store_fetched_malformed _ _ _ _ _ f st Hst Hlt' Hmal) in Hf.
Qed.

Lemma fetch_returns_accepted_only_witness :
  let self := Examples.cache_of 1200 Examples.new_feed in
  let w := Examples.no_file in
  let w' := updated self "u" (mkFeed Examples.new_feed (timedelta 60))
              (requested self "u" w) in
  must_request self 0 "u" w ∧
  response self "u" w = Ok (Some Examples.new_feed) ∧
  fetch self 0 "u" w = (Ok Examples.new_feed, w') ∧
  ∃ f st, Some Examples.new_feed = Some f ∧ accepted f st ∧
          payload_of (cache_lookup self "u" w) f st = Some Examples.new_feed.
Proof.
  intros self w w'.
  assert (fetch self 0 "u" w = (Ok Examples.new_feed, w')) as Hf
    by (vm_compute; reflexivity).
  split; [exact I|]. split; [reflexivity|]. split; [exact Hf|].
  exact (fetch_returns_accepted_only self 0 "u" w w' _ Examples.new_feed
           I eq_refl Hf).
Defined.

(** ** The TTL cache against its tests *)

(** X20: in the TTL cache as modelled from the specification, a write
    stores the payload with the creation time of the write and the expire
    time its lifetime gives (none for the assignment form, the given time,
    or creation time plus the seconds), and both reads then give the
    payload back, stale exactly from the expire time on -- what the tests
    [test_setitem], [test_create_or_update_dt],
    [test_create_or_update_seconds] and the fresh and stale reads of
    [TestGet] observe. *)
Theorem written_item_reads_back (d : ShelfCache.disk) (t0 now : datetime)
    (key : string) (p : ShelfCache.payload) (l : ShelfCache.lifetime) :
  let d' := ShelfCache.create_or_update t0 key p l d in
  let e := match l with
           | ShelfCache.never_expires => None
           | ShelfCache.expire_at dt => Some dt
           | ShelfCache.ttl_seconds s => Some (t0 + timedelta s)
           end in
  let stale := match e with
               | Some dt => bool_decide (dt <= now)
               | None => false
               end in
  (d' ≫= λ shelf, shelf !! key) = Some (ShelfCache.mkItem p e t0) ∧
  ShelfCache.get now key d' = (Ok (Some (p, stale)), d') ∧
  ShelfCache.getitem now key d' = (Ok (p, stale), d') ∧
  ShelfCache.setitem t0 key p d
  = ShelfCache.create_or_update t0 key p ShelfCache.never_expires d.
Proof.
  intros d' e stale.
  assert ((d' ≫= λ shelf, shelf !! key) = Some (ShelfCache.mkItem p e t0)) as Hlook.
  { unfold d', ShelfCache.create_or_update; simpl. by rewrite lookup_insert_eq. }
  assert (ShelfCache.is_stale now (ShelfCache.mkItem p e t0) = stale) as Hstale.
  { unfold ShelfCache.is_stale, stale; simpl. destruct e as [dt|]; [|done].
    case_bool_decide; [apply Z.leb_le | apply Z.leb_gt]; lia. }
  split; [exact Hlook|]. split; [|split; [|reflexivity]].
  - unfold ShelfCache.get. unfold d' at 1, ShelfCache.create_or_update at 1.
    unfold d', ShelfCache.create_or_update in Hlook; simpl in Hlook.
    rewrite Hlook; simpl. by rewrite Hstale.
  - unfold ShelfCache.getitem. rewrite Hlook; simpl. by rewrite Hstale.
Qed.
